(** * networking101: player table, avatar conversion and wire helpers

    A shallow embedding of [src/server.c] and [src/w-helper.c].

    - Unsigned C integers ([uint32_t], [uint8_t], [size_t]) are values of [N];
      the wrap-around of the additions that the code performs on the table
      counters is written out ([u32], [usize]).
    - [int] is [Z]; signed overflow and division by zero are undefined
      behaviour.
    - A function whose C execution may hit undefined behaviour (an access
      outside an array, a free of a dangling pointer) returns [option]:
      [None] stands for undefined behaviour.
    - A [Player *] into [g_players] is the index of the row; the nullable
      pointer is [option N].
    - The C heap that holds the avatar buffers is a finite map from block
      names to byte cells; a cell that [malloc] has not initialised yet is
      [None]. *)

From Stdlib Require Import ZArith NArith Lia List.
From Stdlib.Strings Require Import Byte.
From stdpp Require Import base option list gmap.

(** ** Configuration (server.c, lines 19-34) *)

Definition MAX_CLIENTS : N := 32.
Definition MAX_PLAYERS : N := MAX_CLIENTS.
Definition MAX_TAG_LEN : N := 31.
Definition MAX_AVATAR_W : N := 8.
Definition MAX_AVATAR_H : N := 8.
Definition AVATAR_CHANNEL_COUNT : N := 4.
Definition RGBA_CHANNEL_COUNT : N := 4.
Definition RGB_CHANNEL_COUNT : N := 3.
Definition WINDOW_W : Z := 500.
Definition WINDOW_H : Z := 500.
Definition MIN_PLAYER_X_POS : Z := 100.
Definition MAX_PLAYER_X_POS : Z := 400.
Definition MIN_PLAYER_Y_POS : Z := 100.
Definition MAX_PLAYER_Y_POS : Z := 400.

(** ** Machine integers *)

Definition u32 (n : N) : N := (n mod 2 ^ 32)%N.
Definition usize (n : N) : N := (n mod 2 ^ 64)%N.

Definition INT_MIN : Z := (- 2 ^ 31)%Z.
Definition INT_MAX : Z := (2 ^ 31 - 1)%Z.
Definition SSIZE_MAX : Z := (2 ^ 63 - 1)%Z.

(** An [int] result: outside the range of [int] the C operation is undefined. *)
Definition int_ok (z : Z) : option Z :=
  if ((INT_MIN <=? z) && (z <=? INT_MAX))%Z then Some z else None.

(** [(ssize_t)n] for a [size_t] value [n]. *)
Definition to_ssize (n : N) : Z :=
  let z := Z.of_N (usize n) in
  if (z <=? SSIZE_MAX)%Z then z else (z - 2 ^ 64)%Z.

(** ** irand (w-helper.c, lines 8-12)

    [rnd] is the value that the call of [rand()] returned. *)
Definition irand (a b : Z) (rnd : Z) : option Z :=
  d ← int_ok (b - a);
  m ← int_ok (d + 1);
  q ← (if (m =? 0)%Z then None
       else if ((rnd =? INT_MIN) && (m =? -1))%Z then None
       else Some (Z.rem rnd m));
  int_ok (a + q).

(** ** The Player structure (server.c, lines 51-64) *)

(** raylib's [Texture2D]: [unsigned int id; int width, height, mipmaps, format]. *)
Record Texture2D := mkTexture2D {
  tex_id : N;
  tex_width : Z;
  tex_height : Z;
  tex_mipmaps : Z;
  tex_format : Z
}.

Record Player := mkPlayer {
  ip : N;
  player_id : N;
  tag : list byte;
  pos_x : Z;
  pos_y : Z;
  avatar : option positive;
  w : N;
  h : N;
  ch : N;
  connected : bool;
  tex : Texture2D;
  tex_inited : bool;
  tex_dirty : bool
}.

(** [memset(p, 0, sizeof *p)], and the zero initialisation of a static row. *)
Definition zero_player : Player :=
  {| ip := 0; player_id := 0;
     tag := replicate (N.to_nat (MAX_TAG_LEN + 1)) x00;
     pos_x := 0; pos_y := 0; avatar := None; w := 0; h := 0; ch := 0;
     connected := false; tex := mkTexture2D 0 0 0 0 0;
     tex_inited := false; tex_dirty := false |}.

(** Field assignments [p->f = v]. *)
Definition with_ip (v : N) (p : Player) : Player :=
  mkPlayer v (player_id p) (tag p) (pos_x p) (pos_y p) (avatar p) (w p) (h p)
    (ch p) (connected p) (tex p) (tex_inited p) (tex_dirty p).
Definition with_player_id (v : N) (p : Player) : Player :=
  mkPlayer (ip p) v (tag p) (pos_x p) (pos_y p) (avatar p) (w p) (h p)
    (ch p) (connected p) (tex p) (tex_inited p) (tex_dirty p).
Definition with_pos_x (v : Z) (p : Player) : Player :=
  mkPlayer (ip p) (player_id p) (tag p) v (pos_y p) (avatar p) (w p) (h p)
    (ch p) (connected p) (tex p) (tex_inited p) (tex_dirty p).
Definition with_pos_y (v : Z) (p : Player) : Player :=
  mkPlayer (ip p) (player_id p) (tag p) (pos_x p) v (avatar p) (w p) (h p)
    (ch p) (connected p) (tex p) (tex_inited p) (tex_dirty p).
Definition with_avatar (v : option positive) (p : Player) : Player :=
  mkPlayer (ip p) (player_id p) (tag p) (pos_x p) (pos_y p) v (w p) (h p)
    (ch p) (connected p) (tex p) (tex_inited p) (tex_dirty p).
Definition with_w (v : N) (p : Player) : Player :=
  mkPlayer (ip p) (player_id p) (tag p) (pos_x p) (pos_y p) (avatar p) v (h p)
    (ch p) (connected p) (tex p) (tex_inited p) (tex_dirty p).
Definition with_h (v : N) (p : Player) : Player :=
  mkPlayer (ip p) (player_id p) (tag p) (pos_x p) (pos_y p) (avatar p) (w p) v
    (ch p) (connected p) (tex p) (tex_inited p) (tex_dirty p).
Definition with_ch (v : N) (p : Player) : Player :=
  mkPlayer (ip p) (player_id p) (tag p) (pos_x p) (pos_y p) (avatar p) (w p) (h p)
    v (connected p) (tex p) (tex_inited p) (tex_dirty p).
Definition with_connected (v : bool) (p : Player) : Player :=
  mkPlayer (ip p) (player_id p) (tag p) (pos_x p) (pos_y p) (avatar p) (w p) (h p)
    (ch p) v (tex p) (tex_inited p) (tex_dirty p).
Definition with_tex_inited (v : bool) (p : Player) : Player :=
  mkPlayer (ip p) (player_id p) (tag p) (pos_x p) (pos_y p) (avatar p) (w p) (h p)
    (ch p) (connected p) (tex p) v (tex_dirty p).
Definition with_tex_dirty (v : bool) (p : Player) : Player :=
  mkPlayer (ip p) (player_id p) (tag p) (pos_x p) (pos_y p) (avatar p) (w p) (h p)
    (ch p) (connected p) (tex p) (tex_inited p) v.

(** ** Global shared state (server.c, lines 73-78)

    [g_client_fds], [g_client_count], [g_lock] and [g_running] are declared
    in the file, but no function with a body reads or writes them. *)
Record state := mkState {
  g_players : list Player;
  g_player_count : N;
  g_next_player_id : N;
  heap : gmap positive (list (option byte))
}.

Definition init_state : state :=
  {| g_players := replicate (N.to_nat MAX_PLAYERS) zero_player;
     g_player_count := 0;
     g_next_player_id := 1;
     heap := ∅ |}.

Definition with_players (ps : list Player) (s : state) : state :=
  mkState ps (g_player_count s) (g_next_player_id s) (heap s).

(** ** find_player_by_ip (server.c, lines 93-104)

    [iters] counts the remaining iterations of the [for] loop whose index is
    [i]. The outer [None] is a read outside [g_players]; the inner [None] is
    the C [NULL]. *)
Fixpoint find_loop (players : list Player) (target_ip : N) (i : N) (iters : nat)
  : option (option N) :=
  match iters with
  | O => Some None
  | S k =>
      p ← players !! N.to_nat i;
      if (ip p =? target_ip)%N then Some (Some i)
      else find_loop players target_ip (i + 1) k
  end.

Definition find_player_by_ip (target_ip : N) (s : state) : option (option N) :=
  find_loop (g_players s) target_ip 0 (N.to_nat (g_player_count s)).

(** ** ensure_player (server.c, lines 111-152) *)

Definition new_player_index (s : state) : N := usize (g_player_count s + 1).

Definition new_player_id (s : state) : N := u32 (g_next_player_id s + 1).

(** [rnd_x] and [rnd_y] are the values of the two calls of [rand()]. *)
Definition ensure_player (target_ip : N) (rnd_x rnd_y : Z) (s : state)
  : option (option N * state) :=
  p ← find_player_by_ip target_ip s;
  match p with
  | Some i => Some (Some i, s)
  | None =>
      if (MAX_PLAYERS <=? g_player_count s)%N then Some (None, s)
      else
        let idx := new_player_index s in
        (* memset and the assignments write the row: it has to exist *)
        _ ← g_players s !! N.to_nat idx;
        let new_player := with_ip target_ip zero_player in
        let new_player := with_player_id (new_player_id s) new_player in
        x ← irand MIN_PLAYER_X_POS (WINDOW_W - MAX_PLAYER_X_POS) rnd_x;
        let new_player := with_pos_x x new_player in
        y ← irand MIN_PLAYER_Y_POS (WINDOW_H - MAX_PLAYER_Y_POS) rnd_y;
        let new_player := with_pos_y y new_player in
        let new_player := with_connected false new_player in
        let new_player := with_tex_inited false new_player in
        let new_player := with_tex_dirty false new_player in
        Some (Some idx,
              with_players (<[N.to_nat idx := new_player]> (g_players s)) s)
  end.

(** ** The allocator

    [malloc] may fail; [ok] says whether this call succeeds. A successful
    call returns a block that is not live, every cell of it uninitialised. *)
Definition malloc (ok : bool) (len : N) (hp : gmap positive (list (option byte)))
  : option positive * gmap positive (list (option byte)) :=
  if ok then
    let l := fresh (dom hp) in
    (Some l, <[l := replicate (N.to_nat len) None]> hp)
  else (None, hp).

(** [free(NULL)] does nothing; freeing a block that is not live is undefined. *)
Definition free (ptr : option positive) (hp : gmap positive (list (option byte)))
  : option (gmap positive (list (option byte))) :=
  match ptr with
  | None => Some hp
  | Some l =>
      match hp !! l with
      | Some _ => Some (delete l hp)
      | None => None
      end
  end.

(** [av_pixels[i]]: a read outside the source buffer is undefined. *)
Definition load (av_pixels : list byte) (i : N) : option byte :=
  av_pixels !! N.to_nat i.

(** [image_buf[i] = v]: a write outside the block is undefined. *)
Definition store (image_buf : list (option byte)) (i : N) (v : byte)
  : option (list (option byte)) :=
  _ ← image_buf !! N.to_nat i;
  Some (<[N.to_nat i := Some v]> image_buf).

(** ** set_player_avatar (server.c, lines 164-251) *)

(** Lines 173-181: [if (v > max) v = max;] *)
Definition truncate_dim (v max : N) : N := if (max <? v)%N then max else v.

(** Lines 209-231: the r, g, b, a of the pixel with flat index [i]. *)
Definition pixel_rgba (av_pixels : list byte) (av_ch : N) (i : N)
  : option (byte * byte * byte * byte) :=
  if (av_ch =? RGBA_CHANNEL_COUNT)%N then
    r ← load av_pixels (i * RGBA_CHANNEL_COUNT + 0);
    g ← load av_pixels (i * RGBA_CHANNEL_COUNT + 1);
    b ← load av_pixels (i * RGBA_CHANNEL_COUNT + 2);
    a ← load av_pixels (i * RGBA_CHANNEL_COUNT + 3);
    Some (r, g, b, a)
  else if (av_ch =? RGB_CHANNEL_COUNT)%N then
    r ← load av_pixels (i * RGB_CHANNEL_COUNT + 0);
    g ← load av_pixels (i * RGB_CHANNEL_COUNT + 1);
    b ← load av_pixels (i * RGB_CHANNEL_COUNT + 2);
    Some (r, g, b, xff)
  else
    v ← load av_pixels i;
    Some (v, v, v, xff).

(** Lines 203-237: the body of the inner loop. The index arithmetic is done
    in [size_t] on values below [2 ^ 32], so it cannot wrap. *)
Definition convert_pixel (av_pixels : list byte) (av_w av_ch : N) (y x : N)
    (image_buf : list (option byte)) : option (list (option byte)) :=
  let i := (y * av_w + x)%N in
  '(r, g, b, a) ← pixel_rgba av_pixels av_ch i;
  buf ← store image_buf (i * RGBA_CHANNEL_COUNT + 0) r;
  buf ← store buf (i * RGBA_CHANNEL_COUNT + 1) g;
  buf ← store buf (i * RGBA_CHANNEL_COUNT + 2) b;
  store buf (i * RGBA_CHANNEL_COUNT + 3) a.

(** Line 200: [for (x = ...; x < av_w; ++x)], [iters] iterations left. *)
Fixpoint row_loop (av_pixels : list byte) (av_w av_ch : N) (y x : N)
    (iters : nat) (image_buf : list (option byte))
  : option (list (option byte)) :=
  match iters with
  | O => Some image_buf
  | S k =>
      buf ← convert_pixel av_pixels av_w av_ch y x image_buf;
      row_loop av_pixels av_w av_ch y (x + 1) k buf
  end.

(** Line 198: [for (y = ...; y < av_h; ++y)], [iters] iterations left. *)
Fixpoint image_loop (av_pixels : list byte) (av_w av_ch : N) (y : N)
    (iters : nat) (image_buf : list (option byte))
  : option (list (option byte)) :=
  match iters with
  | O => Some image_buf
  | S k =>
      buf ← row_loop av_pixels av_w av_ch y 0 (N.to_nat av_w) image_buf;
      image_loop av_pixels av_w av_ch (y + 1) k buf
  end.

(** Lines 186-187: [(size_t)av_w * av_h * RGBA_CHANNEL_COUNT]. *)
Definition image_buf_len (av_w av_h : N) : N :=
  usize (usize (av_w * av_h) * RGBA_CHANNEL_COUNT).

(** Lines 173-239 without the allocator: the truncated dimensions and the
    content that the two loops give a fresh block of [image_buf_len] cells. *)
Definition normalized (av_pixels : list byte) (av_w av_h av_ch : N)
  : option (list (option byte)) :=
  let av_w := truncate_dim av_w MAX_AVATAR_W in
  let av_h := truncate_dim av_h MAX_AVATAR_H in
  image_loop av_pixels av_w av_ch 0 (N.to_nat av_h)
    (replicate (N.to_nat (image_buf_len av_w av_h)) None).

(** [alloc_ok] says whether the [malloc] of line 188 succeeds. *)
Definition set_player_avatar (alloc_ok : bool) (target_player : N)
    (av_pixels : list byte) (av_w av_h av_ch : N) (s : state)
  : option (bool * state) :=
  let av_w := truncate_dim av_w MAX_AVATAR_W in
  let av_h := truncate_dim av_h MAX_AVATAR_H in
  match malloc alloc_ok (image_buf_len av_w av_h) (heap s) with
  | (None, _) => Some (false, s)
  | (Some image_buf, hp) =>
      cells ← hp !! image_buf;
      cells ← image_loop av_pixels av_w av_ch 0 (N.to_nat av_h) cells;
      let hp := <[image_buf := cells]> hp in
      p ← g_players s !! N.to_nat target_player;
      hp ← free (avatar p) hp;
      let p := with_avatar (Some image_buf) p in
      let p := with_w av_w p in
      let p := with_h av_h p in
      let p := with_ch RGBA_CHANNEL_COUNT p in
      let p := with_tex_dirty true p in
      Some (true,
            mkState (<[N.to_nat target_player := p]> (g_players s))
              (g_player_count s) (g_next_player_id s) hp)
  end.

(** ** The socket (recv and send of the C library)

    One connection. [incoming] scripts what the coming calls of [recv] meet,
    [outgoing] what the coming calls of [send] meet, [wire] collects the
    bytes handed to the transport, and [errno] is the C variable. *)

Definition EINTR : Z := 4.

Inductive recv_event :=
| RecvData (b : byte) (bs : list byte) (* these bytes are ready to be read *)
| RecvClosed                           (* the peer has shut down: recv gives 0 *)
| RecvError (e : Z).                   (* recv gives -1 and sets errno to e *)

Inductive send_event :=
| SendSome (n : nat)                   (* the transport takes up to S n bytes *)
| SendZero                             (* send gives 0, errno is not written *)
| SendError (e : Z).                   (* send gives -1 and sets errno to e *)

Record conn := mkConn {
  incoming : list recv_event;
  outgoing : list send_event;
  wire : list byte;
  errno : Z
}.

(** Bytes that a call of [recv] left unread stay at the head of the stream. *)
Definition requeue (left : list byte) (rest : list recv_event) : list recv_event :=
  match left with
  | [] => rest
  | b :: bs => RecvData b bs :: rest
  end.

(** [recv(fd, p, n, 0)]: the return value, the bytes written at [p] and the
    connection afterwards. With nothing scripted the call never returns. *)
Definition recv (n : N) (c : conn) : option (Z * list byte * conn) :=
  match incoming c with
  | [] => None
  | RecvData b bs :: rest =>
      let data := take (N.to_nat n) (b :: bs) in
      let left := drop (N.to_nat n) (b :: bs) in
      Some (Z.of_nat (length data), data,
            mkConn (requeue left rest) (outgoing c) (wire c) (errno c))
  | RecvClosed :: rest =>
      Some (0%Z, [], mkConn rest (outgoing c) (wire c) (errno c))
  | RecvError e :: rest =>
      Some ((-1)%Z, [], mkConn rest (outgoing c) (wire c) e)
  end.

(** [send(fd, p, n, 0)] where [data] are the [n] bytes at [p]. *)
Definition send (data : list byte) (c : conn) : option (Z * conn) :=
  match outgoing c with
  | [] => None
  | SendSome n :: rest =>
      let sent := take (S n) data in
      Some (Z.of_nat (length sent),
            mkConn (incoming c) rest (wire c ++ sent) (errno c))
  | SendZero :: rest =>
      Some (0%Z, mkConn (incoming c) rest (wire c) (errno c))
  | SendError e :: rest =>
      Some ((-1)%Z, mkConn (incoming c) rest (wire c) e)
  end.

(** The kernel writes [data] at [buf + off]; outside [buf] this is undefined. *)
Definition write_at (buf : list byte) (off : N) (data : list byte)
  : option (list byte) :=
  if decide (N.to_nat off + length data <= length buf) then
    Some (take (N.to_nat off) buf ++ data
            ++ drop (N.to_nat off + length data) buf)
  else None.

(** The [n] bytes at [buf + off]; outside [buf] reading them is undefined. *)
Definition read_at (buf : list byte) (off n : N) : option (list byte) :=
  if decide (N.to_nat off + N.to_nat n <= length buf) then
    Some (take (N.to_nat n) (drop (N.to_nat off) buf))
  else None.

(** ** The diagnostics of recvall

    [perror] (line 34) and [printf] (line 39) write to the standard
    streams; like any library call they may leave another value in
    [errno], for instance when the stream cannot be written. What they
    leave is not decided by the program: each is given as the value of
    [errno] after the call, depending on the state in which it is made. *)
Record stdio := mkStdio {
  perror : conn → Z;
  printf : conn → Z
}.

(** [errno = e], as the library does it. *)
Definition with_errno (e : Z) (c : conn) : conn :=
  mkConn (incoming c) (outgoing c) (wire c) e.

(** Standard streams whose use leaves [errno] as it is. *)
Definition quiet : stdio := mkStdio errno errno.

(** Standard streams on which [perror] fails with 22 ([EINVAL]). *)
Definition broken_stderr : stdio := mkStdio (λ _, 22%Z) errno.

(** ** recvall (w-helper.c, lines 14-52)

    One unfolding is one test of [nrecv < len] followed by one pass through
    the body. [fuel] bounds the passes; [recvall] supplies one more than the
    number of scripted events: a pass that continues either takes an event
    off the script or completes [len] (see [recvall_loop_consume] and
    [recvall_loop_enough]). *)
Fixpoint recvall_loop (io : stdio) (fuel : nat) (c : conn) (buf : list byte)
    (len nrecv : N) : option (Z * list byte * conn) :=
  if (len <=? nrecv)%N then Some (to_ssize nrecv, buf, c)
  else
    match fuel with
    | O => None
    | S k =>
        '(nbytes, data, c) ← recv (len - nrecv) c;
        if (nbytes =? 0)%Z then Some (0%Z, buf, c)
        else if (nbytes <? 0)%Z then
          let c := with_errno (perror io c) c in
          if (errno c =? EINTR)%Z then
            let c := with_errno (printf io c) c in
            recvall_loop io k c buf len nrecv
          else Some ((-1)%Z, buf, c)
        else
          buf ← write_at buf nrecv data;
          recvall_loop io k c buf len (usize (nrecv + Z.to_N nbytes))
    end.

Definition recvall (io : stdio) (c : conn) (buf : list byte) (len : N)
  : option (Z * list byte * conn) :=
  recvall_loop io (S (length (incoming c))) c buf len 0.

(** ** sendall (w-helper.c, lines 54-80) *)
Fixpoint sendall_loop (fuel : nat) (c : conn) (buf : list byte) (len nsent : N)
  : option (Z * conn) :=
  if (len <=? nsent)%N then Some (to_ssize nsent, c)
  else
    match fuel with
    | O => None
    | S k =>
        data ← read_at buf nsent (len - nsent);
        '(nbytes, c) ← send data c;
        if (nbytes <=? 0)%Z then
          if (errno c =? EINTR)%Z then sendall_loop k c buf len nsent
          else Some ((-1)%Z, c)
        else sendall_loop k c buf len (usize (nsent + Z.to_N nbytes))
    end.

Definition sendall (c : conn) (buf : list byte) (len : N) : option (Z * conn) :=
  sendall_loop (length (outgoing c)) c buf len 0.

(** ** Executions and sample states *)

(** The states that the two table operations produce from the initial one. *)
Inductive reachable : state → Prop :=
| reach_init : reachable init_state
| reach_ensure s target_ip rnd_x rnd_y r s' :
    reachable s →
    ensure_player target_ip rnd_x rnd_y s = Some (r, s') →
    reachable s'
| reach_avatar s alloc_ok target_player av_pixels av_w av_h av_ch r s' :
    reachable s →
    set_player_avatar alloc_ok target_player av_pixels av_w av_h av_ch s
      = Some (r, s') →
    reachable s'.

(** [target_player->avatar] is [NULL] or a live block. *)
Definition avatar_live (p : Player) (hp : gmap positive (list (option byte)))
  : Prop :=
  match avatar p with
  | None => True
  | Some l => is_Some (hp !! l)
  end.

(** A table whose counter says that all [MAX_PLAYERS] rows are taken; row [i]
    belongs to identity [i + 1]. *)
Definition full_table : state :=
  {| g_players :=
       map (λ i, with_ip (N.of_nat i + 1) zero_player)
         (seq 0 (N.to_nat MAX_PLAYERS));
     g_player_count := MAX_PLAYERS;
     g_next_player_id := 33;
     heap := ∅ |}.

(** A table whose counter is one below the capacity. *)
Definition almost_full_table : state :=
  {| g_players :=
       map (λ i, with_ip (N.of_nat i + 1) zero_player)
         (seq 0 (N.to_nat MAX_PLAYERS));
     g_player_count := MAX_PLAYERS - 1;
     g_next_player_id := 32;
     heap := ∅ |}.

(** A client identity (127.0.0.1) and the states of the run
    [ensure_player]; [set_player_avatar]; [ensure_player] for it. *)
Definition localhost : N := 2130706433.

Definition registered_once : state :=
  default init_state (snd <$> ensure_player localhost 7 9 init_state).

Definition avatar_uploaded : state :=
  default init_state
    (snd <$> set_player_avatar true 1 [xff; xff; xff] 1 1 3 registered_once).

Definition registered_twice : state :=
  default init_state (snd <$> ensure_player localhost 7 9 avatar_uploaded).

(** A second identity (10.0.0.1), registered after [localhost]. *)
Definition other_host : N := 167772161.

Definition registered_other : state :=
  default init_state (snd <$> ensure_player other_host 3 4 registered_once).

(** A run of calls of [ensure_player], each with its identity and its two
    values of [rand()]; the pointers returned, in the order of the calls. *)
Fixpoint register_all (calls : list (N * Z * Z)) (s : state)
  : option (list (option N) * state) :=
  match calls with
  | [] => Some ([], s)
  | (target_ip, rnd_x, rnd_y) :: rest =>
      '(r, s) ← ensure_player target_ip rnd_x rnd_y s;
      '(rs, s) ← register_all rest s;
      Some (r :: rs, s)
  end.

(** Registrations of the thirty-three identities 1, 2, ..., 33. *)
Definition thirty_three_identities : list (N * Z * Z) :=
  (λ i, (N.of_nat i, 0%Z, 0%Z)) <$> seq 1 33.


(** The row that [ensure_player] writes for [target_ip] in state [s] when
    both calls of [irand] give 100 (they always do, see [irand_100]). *)
Definition created_row (target_ip : N) (s : state) : Player :=
  with_tex_dirty false (with_tex_inited false (with_connected false
    (with_pos_y 100 (with_pos_x 100
      (with_player_id (new_player_id s) (with_ip target_ip zero_player)))))).

(** The four cells of pixel [i] of an image buffer, when all are initialised. *)
Definition cell (image_buf : list (option byte)) (n : N) : option byte :=
  match image_buf !! N.to_nat n with
  | Some (Some v) => Some v
  | _ => None
  end.

Definition pixel_at (image_buf : list (option byte)) (i : N)
  : option (byte * byte * byte * byte) :=
  r ← cell image_buf (i * 4 + 0);
  g ← cell image_buf (i * 4 + 1);
  b ← cell image_buf (i * 4 + 2);
  a ← cell image_buf (i * 4 + 3);
  Some (r, g, b, a).

(** The number of source bytes that the loops of [set_player_avatar] address:
    the truncated pixel count times the stride of the branch taken. *)
Definition src_needed (av_w av_h av_ch : N) : N :=
  (truncate_dim av_w MAX_AVATAR_W * truncate_dim av_h MAX_AVATAR_H
   * (if (av_ch =? RGBA_CHANNEL_COUNT)%N then 4
      else if (av_ch =? RGB_CHANNEL_COUNT)%N then 3 else 1))%N.

(** Lines 209-231 again, reads only: the source indices that the body
    reads for the pixel with flat index [i]. *)
Definition source_reads (av_ch : N) (i : N) : list N :=
  if (av_ch =? RGBA_CHANNEL_COUNT)%N then
    [i * RGBA_CHANNEL_COUNT + 0; i * RGBA_CHANNEL_COUNT + 1;
     i * RGBA_CHANNEL_COUNT + 2; i * RGBA_CHANNEL_COUNT + 3]%N
  else if (av_ch =? RGB_CHANNEL_COUNT)%N then
    [i * RGB_CHANNEL_COUNT + 0; i * RGB_CHANNEL_COUNT + 1;
     i * RGB_CHANNEL_COUNT + 2]%N
  else [i].

(** The state [avatar_uploaded] after a second upload, of a 1x1 RGBA image. *)
Definition avatar_replaced : state :=
  default init_state
    (snd <$> set_player_avatar true 1 [x0a; x14; x1e; x28] 1 1 4 avatar_uploaded).

(** Events that [recvall] gets over without returning: data, and an
    interrupted call. *)
Definition retried (ev : recv_event) : bool :=
  match ev with
  | RecvData _ _ => true
  | RecvClosed => false
  | RecvError e => (e =? EINTR)%Z
  end.

(** A failed call of [recv]. *)
Definition recv_failed (ev : recv_event) : bool :=
  match ev with
  | RecvError _ => true
  | _ => false
  end.

(** [perror] leaves [errno] as it found it. *)
Definition leaves_errno (io : stdio) : Prop :=
  ∀ c, perror io c = errno c.

(** The bytes that a run of events delivers. *)
Definition recv_bytes (evs : list recv_event) : list byte :=
  flat_map (λ ev, match ev with RecvData b bs => b :: bs | _ => [] end) evs.

(** Events that [sendall] gets over without returning: progress, and an
    interrupted call. *)
Definition send_retried (ev : send_event) : bool :=
  match ev with
  | SendSome _ => true
  | SendZero => false
  | SendError e => (e =? EINTR)%Z
  end.

(** The number of bytes that a run of events lets through at most. *)
Definition send_capacity (evs : list send_event) : nat :=
  sum_list_with (λ ev, match ev with SendSome n => S n | _ => 0%nat end) evs.

(** A peer that delivers "hello" in two fragments around an interrupted
    call and then shuts down. *)
Definition hello : list byte := [x68; x65; x6c; x6c; x6f].

Definition hello_conn : conn :=
  {| incoming := [RecvData x68 [x65]; RecvError EINTR; RecvData x6c [x6c; x6f];
                  RecvClosed];
     outgoing := [SendSome 1; SendError EINTR; SendSome 9; SendError 32];
     wire := [];
     errno := 0 |}.

(** What a reader of the table relies on for a row: its avatar pointer is
    [NULL], or it names a live block of [w * h * ch] initialised bytes with
    both dimensions within the maximum and four channels. *)
Definition avatar_ok (hp : gmap positive (list (option byte))) (p : Player)
  : Prop :=
  match avatar p with
  | None => True
  | Some l =>
      ∃ cells,
        hp !! l = Some cells
        ∧ length cells = N.to_nat (w p * h p * ch p)
        ∧ Forall is_Some cells
        ∧ (w p <= MAX_AVATAR_W)%N ∧ (h p <= MAX_AVATAR_H)%N
        ∧ ch p = RGBA_CHANNEL_COUNT
  end.

(** Every row is [avatar_ok], and no block belongs to two rows. *)
Definition table_ok (s : state) : Prop :=
  (∀ i p, g_players s !! i = Some p → avatar_ok (heap s) p)
  ∧ (∀ i j p q l,
       g_players s !! i = Some p → g_players s !! j = Some q →
       avatar p = Some l → avatar q = Some l → i = j).

(** ** The player table: basic facts *)

Lemma irand_100 rnd :
  irand MIN_PLAYER_X_POS (WINDOW_W - MAX_PLAYER_X_POS) rnd = Some 100%Z
  ∧ irand MIN_PLAYER_Y_POS (WINDOW_H - MAX_PLAYER_Y_POS) rnd = Some 100%Z.
Proof.
  assert (H : irand 100 100 rnd = Some 100%Z).
  { unfold irand. simpl. rewrite Z.rem_1_r, andb_false_r. reflexivity. }
  split; exact H.
Qed.

Lemma find_loop_zero players target_ip i :
  find_loop players target_ip i 0 = Some None.
Proof. reflexivity. Qed.

(** [ensure_player] on its creation path, as one equation. *)
Lemma ensure_player_create target_ip rnd_x rnd_y s row :
  find_player_by_ip target_ip s = Some None →
  (g_player_count s < MAX_PLAYERS)%N →
  g_players s !! N.to_nat (new_player_index s) = Some row →
  ensure_player target_ip rnd_x rnd_y s
  = Some (Some (new_player_index s),
          with_players (<[N.to_nat (new_player_index s)
                           := created_row target_ip s]> (g_players s)) s).
Proof.
  intros Hfind Hroom Hrow. unfold ensure_player.
  rewrite Hfind. simpl.
  destruct (N.leb_spec MAX_PLAYERS (g_player_count s)) as [Hle|_]; [lia|].
  rewrite Hrow. simpl.
  destruct (irand_100 rnd_x) as [-> _].
  destruct (irand_100 rnd_y) as [_ ->].
  reflexivity.
Qed.

(** What [ensure_player] returns, whatever the state: the row it found, the
    table-full [NULL], or the row it has just written. *)
Lemma ensure_player_cases target_ip rnd_x rnd_y s r s' :
  ensure_player target_ip rnd_x rnd_y s = Some (r, s') →
  (∃ i, find_player_by_ip target_ip s = Some (Some i) ∧ r = Some i ∧ s' = s)
  ∨ (find_player_by_ip target_ip s = Some None
     ∧ (MAX_PLAYERS <= g_player_count s)%N ∧ r = None ∧ s' = s)
  ∨ (find_player_by_ip target_ip s = Some None
     ∧ (g_player_count s < MAX_PLAYERS)%N
     ∧ is_Some (g_players s !! N.to_nat (new_player_index s))
     ∧ r = Some (new_player_index s)
     ∧ s' = with_players (<[N.to_nat (new_player_index s)
                             := created_row target_ip s]> (g_players s)) s).
Proof.
  intros Hrun.
  destruct (find_player_by_ip target_ip s) as [[i|]|] eqn:Hfind.
  - left. unfold ensure_player in Hrun. rewrite Hfind in Hrun.
    simpl in Hrun. inversion Hrun. eauto.
  - right.
    destruct (N.leb_spec MAX_PLAYERS (g_player_count s)) as [Hle|Hlt].
    + left. unfold ensure_player in Hrun. rewrite Hfind in Hrun. simpl in Hrun.
      pose proof Hle as Hle'. apply N.leb_le in Hle'. rewrite Hle' in Hrun.
      inversion Hrun; subst. auto.
    + right.
      destruct (g_players s !! N.to_nat (new_player_index s)) as [row|] eqn:Hrow.
      * rewrite (ensure_player_create _ _ _ _ row) in Hrun by assumption.
        inversion Hrun. eauto 10.
      * exfalso. unfold ensure_player in Hrun. rewrite Hfind in Hrun.
        simpl in Hrun. apply N.ltb_lt in Hlt. rewrite N.ltb_antisym in Hlt.
        apply negb_true_iff in Hlt. rewrite Hlt, Hrow in Hrun. discriminate.
  - unfold ensure_player in Hrun. rewrite Hfind in Hrun. discriminate.
Qed.

Lemma set_player_avatar_counters alloc_ok target_player av_pixels av_w av_h av_ch s r s' :
  set_player_avatar alloc_ok target_player av_pixels av_w av_h av_ch s
    = Some (r, s') →
  g_player_count s' = g_player_count s
  ∧ g_next_player_id s' = g_next_player_id s
  ∧ length (g_players s') = length (g_players s).
Proof.
  unfold set_player_avatar. intros Hrun.
  destruct (malloc _ _ _) as [[l|] hp].
  - simplify_option_eq. simpl. rewrite length_insert. auto.
  - inversion Hrun. auto.
Qed.

(** No execution moves the two counters or resizes the array. *)
Lemma reachable_counters s :
  reachable s →
  g_player_count s = 0%N ∧ g_next_player_id s = 1%N
  ∧ length (g_players s) = N.to_nat MAX_PLAYERS.
Proof.
  induction 1 as [|s tip rx ry r s' _ IH Hrun|s ok tp px aw ah ac r s' _ IH Hrun].
  - repeat split; reflexivity.
  - destruct IH as (Hc & Hn & Hl).
    destruct (ensure_player_cases _ _ _ _ _ _ Hrun)
      as [(i & _ & _ & ->)|[(_ & _ & _ & ->)|(_ & _ & _ & _ & ->)]]; auto.
    simpl. rewrite length_insert. auto.
  - destruct (set_player_avatar_counters _ _ _ _ _ _ _ _ _ Hrun) as (-> & -> & ->).
    exact IH.
Qed.

Lemma reachable_find s target_ip :
  reachable s → find_player_by_ip target_ip s = Some None.
Proof.
  intros Hs. destruct (reachable_counters s Hs) as (Hc & _).
  unfold find_player_by_ip. rewrite Hc. reflexivity.
Qed.

Lemma reachable_slot s :
  reachable s →
  new_player_index s = 1%N ∧ new_player_id s = 2%N
  ∧ is_Some (g_players s !! N.to_nat (new_player_index s)).
Proof.
  intros Hs. destruct (reachable_counters s Hs) as (Hc & Hn & Hl).
  unfold new_player_index, new_player_id. rewrite Hc, Hn.
  repeat split. apply lookup_lt_is_Some. rewrite Hl. vm_compute. lia.
Qed.

(** From a reachable state every call of [ensure_player] runs the creation
    path and writes row 1. *)
Lemma reachable_ensure s target_ip rnd_x rnd_y :
  reachable s →
  ensure_player target_ip rnd_x rnd_y s
  = Some (Some 1%N,
          with_players (<[1%nat := created_row target_ip s]> (g_players s)) s).
Proof.
  intros Hs.
  destruct (reachable_slot s Hs) as (Hi & _ & [row Hrow]).
  destruct (reachable_counters s Hs) as (Hc & _).
  rewrite (ensure_player_create _ _ _ _ row); auto using reachable_find.
  - rewrite Hi. reflexivity.
  - rewrite Hc. reflexivity.
Qed.

(** The capacity test alone does not protect the write: with the counter at
    [MAX_PLAYERS - 1] the test passes and the row written is one past the
    end of [g_players]. No execution reaches such a counter. *)
Lemma capacity_test_leaves_last_slot_out :
  (g_player_count almost_full_table < MAX_PLAYERS)%N
  ∧ find_player_by_ip 99 almost_full_table = Some None
  ∧ new_player_index almost_full_table = MAX_PLAYERS
  ∧ ensure_player 99 0 0 almost_full_table = None.
Proof. repeat split. Qed.

(** ** The player table: the claims *)

(** C1 (the code departs from the claim). After [ensure_player] has written
    the row of an identity, [find_player_by_ip] does not find that identity,
    because [g_player_count] is still 0. A second call for the same identity
    therefore runs the creation path again: it returns the same row, wiped.
    The avatar that was uploaded in between is gone from the row (and its
    block is still allocated), and the dirty flag is back to false. A call
    for another identity writes the same row, after which no row of the
    array carries the first identity. *)
Theorem ensure_player_recreates_row :
  ensure_player localhost 7 9 init_state = Some (Some 1%N, registered_once)
  ∧ find_player_by_ip localhost registered_once = Some None
  ∧ g_player_count registered_once = 0%N
  ∧ set_player_avatar true 1 [xff; xff; xff] 1 1 3 registered_once
    = Some (true, avatar_uploaded)
  ∧ avatar <$> g_players avatar_uploaded !! 1%nat = Some (Some 1%positive)
  ∧ tex_dirty <$> g_players avatar_uploaded !! 1%nat = Some true
  ∧ ensure_player localhost 7 9 avatar_uploaded
    = Some (Some 1%N, registered_twice)
  ∧ avatar <$> g_players registered_twice !! 1%nat = Some None
  ∧ tex_dirty <$> g_players registered_twice !! 1%nat = Some false
  ∧ heap registered_twice !! 1%positive
    = Some [Some xff; Some xff; Some xff; Some xff]
  ∧ ensure_player other_host 3 4 registered_once
    = Some (Some 1%N, registered_other)
  ∧ forallb (λ p, negb (ip p =? localhost)%N) (g_players registered_other)
    = true.
Proof. repeat split; vm_compute; reflexivity. Qed.

(** Whatever the calls, a run of registrations from a reachable state gives
    row 1 to each of them. *)
Lemma register_all_reachable calls :
  ∀ s, reachable s →
       ∃ s', register_all calls s
             = Some (replicate (length calls) (Some 1%N), s')
             ∧ reachable s'.
Proof.
  induction calls as [|[[target_ip rnd_x] rnd_y] rest IH]; intros s Hs.
  - exists s. split; [reflexivity|exact Hs].
  - pose proof (reachable_ensure s target_ip rnd_x rnd_y Hs) as Hrun.
    pose proof (reach_ensure _ _ _ _ _ _ Hs Hrun) as Hs1.
    destruct (IH _ Hs1) as (s' & Hrest & Hs').
    exists s'. split; [|exact Hs'].
    cbn [register_all]. rewrite Hrun. cbn [mbind option_bind].
    rewrite Hrest. reflexivity.
Qed.

(** C2 (the code departs from the claim). The capacity is never exhausted
    and the table-full [NULL] is never returned: of thirty-three distinct
    identities registered from the initial state, each one, the
    thirty-third included, is given row 1, and [g_player_count] is still 0
    afterwards; the same holds for every run of calls. The counter stays
    within [MAX_PLAYERS] only because it is never advanced. *)
Theorem thirty_third_identity_gets_a_row :
  NoDup ((λ call, call.1.1) <$> thirty_three_identities)
  ∧ length thirty_three_identities = 33%nat
  ∧ (∃ s',
       register_all thirty_three_identities init_state
       = Some (replicate 33 (Some 1%N), s')
       ∧ g_player_count s' = 0%N
       ∧ find_player_by_ip 33 s' = Some None)
  ∧ ∀ calls,
      ∃ s', register_all calls init_state
            = Some (replicate (length calls) (Some 1%N), s')
            ∧ g_player_count s' = 0%N.
Proof.
  split; [|split; [reflexivity|split]].
  - unfold thirty_three_identities. rewrite <- list_fmap_compose.
    apply NoDup_fmap_2; [|apply NoDup_seq].
    intros x y Hxy. simpl in Hxy. lia.
  - destruct (register_all_reachable thirty_three_identities init_state reach_init)
      as (s' & Hrun & Hs').
    exists s'. split; [exact Hrun|].
    split; [apply reachable_counters, Hs'|apply reachable_find, Hs'].
  - intros calls.
    destruct (register_all_reachable calls init_state reach_init)
      as (s' & Hrun & Hs').
    exists s'. split; [exact Hrun|apply reachable_counters, Hs'].
Qed.

(** C3 (the code departs from the claim). Two players created one after the
    other, for any two identities, both get [player_id] 2, and
    [g_next_player_id] still holds its initial 1 afterwards: the counter is
    read but never advanced. *)
Theorem created_player_ids_repeat ip1 ip2 rnd1 rnd2 rnd3 rnd4 :
  ∃ s1 s2,
    ensure_player ip1 rnd1 rnd2 init_state = Some (Some 1%N, s1)
    ∧ player_id <$> g_players s1 !! 1%nat = Some 2%N
    ∧ find_player_by_ip ip2 s1 = Some None
    ∧ ensure_player ip2 rnd3 rnd4 s1 = Some (Some 1%N, s2)
    ∧ player_id <$> g_players s2 !! 1%nat = Some 2%N
    ∧ g_next_player_id s2 = 1%N.
Proof.
  pose proof reach_init as H0.
  pose proof (reachable_ensure _ ip1 rnd1 rnd2 H0) as E1.
  pose proof (reach_ensure _ _ _ _ _ _ H0 E1) as H1.
  pose proof (reachable_ensure _ ip2 rnd3 rnd4 H1) as E2.
  eexists _, _. split; [exact E1|].
  split; [reflexivity|].
  split; [apply reachable_find, H1|].
  split; [exact E2|].
  split; reflexivity.
Qed.

(** C4. In every reachable state in which [ensure_player] gets past the
    capacity test for an identity it does not find, the row it writes,
    [g_players[g_player_count + 1]], lies inside the array. *)
Theorem new_player_slot_in_bounds s target_ip :
  reachable s →
  find_player_by_ip target_ip s = Some None →
  (g_player_count s < MAX_PLAYERS)%N →
  (new_player_index s < MAX_PLAYERS)%N
  ∧ is_Some (g_players s !! N.to_nat (new_player_index s)).
Proof.
  intros Hs _ _. destruct (reachable_slot s Hs) as (Hi & _ & Hrow).
  split; [|exact Hrow]. rewrite Hi. reflexivity.
Qed.

Lemma new_player_slot_in_bounds_witness :
  (new_player_index registered_once < MAX_PLAYERS)%N
  ∧ is_Some (g_players registered_once
               !! N.to_nat (new_player_index registered_once)).
Proof.
  apply (new_player_slot_in_bounds registered_once localhost).
  - apply (reach_ensure init_state localhost 7 9 (Some 1%N)).
    + apply reach_init.
    + reflexivity.
  - reflexivity.
  - reflexivity.
Defined.

(** C10. Whatever the two calls of [rand()] return, a call of
    [ensure_player] that creates a player returns, and the row it has
    written lies inside the configured rectangle. *)
Theorem created_position_in_rectangle target_ip rnd_x rnd_y s :
  find_player_by_ip target_ip s = Some None →
  (g_player_count s < MAX_PLAYERS)%N →
  is_Some (g_players s !! N.to_nat (new_player_index s)) →
  ∃ idx s' p,
    ensure_player target_ip rnd_x rnd_y s = Some (Some idx, s')
    ∧ g_players s' !! N.to_nat idx = Some p
    ∧ ip p = target_ip
    ∧ (MIN_PLAYER_X_POS <= pos_x p <= MAX_PLAYER_X_POS)%Z
    ∧ (MIN_PLAYER_Y_POS <= pos_y p <= MAX_PLAYER_Y_POS)%Z.
Proof.
  intros Hfind Hroom [row Hrow].
  eexists _, _, _. split; [apply (ensure_player_create _ _ _ _ row); assumption|].
  split.
  - simpl. apply list_lookup_insert_eq. eapply lookup_lt_Some, Hrow.
  - repeat split; vm_compute; discriminate.
Qed.

Lemma created_position_in_rectangle_witness :
  ∃ idx s' p,
    ensure_player localhost 12345 (-3) init_state = Some (Some idx, s')
    ∧ g_players s' !! N.to_nat idx = Some p
    ∧ ip p = localhost
    ∧ (MIN_PLAYER_X_POS <= pos_x p <= MAX_PLAYER_X_POS)%Z
    ∧ (MIN_PLAYER_Y_POS <= pos_y p <= MAX_PLAYER_Y_POS)%Z.
Proof.
  apply (created_position_in_rectangle localhost 12345 (-3) init_state).
  - reflexivity.
  - reflexivity.
  - eexists. reflexivity.
Defined.

(** ** Avatar conversion: the loops *)

Lemma truncate_dim_le v max : (truncate_dim v max <= max)%N.
Proof. unfold truncate_dim. destruct (N.ltb_spec max v); lia. Qed.

Lemma truncate_dim_le_arg v max : (truncate_dim v max <= v)%N.
Proof. unfold truncate_dim. destruct (N.ltb_spec max v); lia. Qed.

Lemma truncate_dim_above v max : (max < v)%N → truncate_dim v max = max.
Proof. unfold truncate_dim. destruct (N.ltb_spec max v); lia. Qed.

Lemma truncate_dim_below v max : (v <= max)%N → truncate_dim v max = v.
Proof. unfold truncate_dim. destruct (N.ltb_spec max v); lia. Qed.

(** The [size_t] product of line 187 does not wrap on truncated dimensions. *)
Lemma image_buf_len_truncated av_w av_h :
  image_buf_len (truncate_dim av_w MAX_AVATAR_W) (truncate_dim av_h MAX_AVATAR_H)
  = (truncate_dim av_w MAX_AVATAR_W * truncate_dim av_h MAX_AVATAR_H * 4)%N.
Proof.
  pose proof (truncate_dim_le av_w MAX_AVATAR_W) as Hw.
  pose proof (truncate_dim_le av_h MAX_AVATAR_H) as Hh.
  unfold MAX_AVATAR_W, MAX_AVATAR_H in *.
  set (a := truncate_dim av_w 8) in *. set (b := truncate_dim av_h 8) in *.
  assert (Hab : (a * b <= 64)%N) by nia.
  unfold image_buf_len, usize, RGBA_CHANNEL_COUNT.
  rewrite (N.mod_small (a * b)) by (change (2 ^ 64)%N with 18446744073709551616%N; lia).
  apply N.mod_small. change (2 ^ 64)%N with 18446744073709551616%N. lia.
Qed.

Lemma store_ok image_buf i v :
  (N.to_nat i < length image_buf)%nat →
  store image_buf i v = Some (<[N.to_nat i := Some v]> image_buf).
Proof.
  intros Hi. unfold store.
  destruct (lookup_lt_is_Some_2 image_buf (N.to_nat i) Hi) as [c ->].
  reflexivity.
Qed.

(** Which source reads a pixel needs, per branch. *)
Lemma pixel_rgba_defined av_pixels av_ch i :
  (N.to_nat ((i + 1)
     * (if (av_ch =? RGBA_CHANNEL_COUNT)%N then 4
        else if (av_ch =? RGB_CHANNEL_COUNT)%N then 3 else 1))
   <= length av_pixels)%nat →
  is_Some (pixel_rgba av_pixels av_ch i).
Proof.
  unfold pixel_rgba, load, RGBA_CHANNEL_COUNT, RGB_CHANNEL_COUNT.
  intros Hlen.
  destruct (av_ch =? 4)%N; [|destruct (av_ch =? 3)%N].
  - destruct (lookup_lt_is_Some_2 av_pixels (N.to_nat (i * 4 + 0))) as [r ->]; [lia|].
    destruct (lookup_lt_is_Some_2 av_pixels (N.to_nat (i * 4 + 1))) as [g ->]; [lia|].
    destruct (lookup_lt_is_Some_2 av_pixels (N.to_nat (i * 4 + 2))) as [b ->]; [lia|].
    destruct (lookup_lt_is_Some_2 av_pixels (N.to_nat (i * 4 + 3))) as [a ->]; [lia|].
    eexists. reflexivity.
  - destruct (lookup_lt_is_Some_2 av_pixels (N.to_nat (i * 3 + 0))) as [r ->]; [lia|].
    destruct (lookup_lt_is_Some_2 av_pixels (N.to_nat (i * 3 + 1))) as [g ->]; [lia|].
    destruct (lookup_lt_is_Some_2 av_pixels (N.to_nat (i * 3 + 2))) as [b ->]; [lia|].
    eexists. reflexivity.
  - destruct (lookup_lt_is_Some_2 av_pixels (N.to_nat i)) as [v ->]; [lia|].
    eexists. reflexivity.
Qed.

Lemma cell_insert_eq image_buf n v :
  (N.to_nat n < length image_buf)%nat →
  cell (<[N.to_nat n := Some v]> image_buf) n = Some v.
Proof. intros Hn. unfold cell. rewrite list_lookup_insert_eq by assumption. reflexivity. Qed.

Lemma cell_insert_ne image_buf n m v :
  n ≠ m → cell (<[N.to_nat n := Some v]> image_buf) m = cell image_buf m.
Proof. intros Hn. unfold cell. rewrite list_lookup_insert_ne by lia. reflexivity. Qed.

(** One pass of the inner body: pixel [i] gets its four bytes, the cells of
    every other pixel keep their content, the block keeps its size. *)
Lemma convert_pixel_ok av_pixels av_w av_ch y x image_buf rgba :
  pixel_rgba av_pixels av_ch (y * av_w + x) = Some rgba →
  (N.to_nat ((y * av_w + x) * 4 + 3) < length image_buf)%nat →
  ∃ buf,
    convert_pixel av_pixels av_w av_ch y x image_buf = Some buf
    ∧ length buf = length image_buf
    ∧ pixel_at buf (y * av_w + x) = Some rgba
    ∧ ∀ j, j ≠ (y * av_w + x)%N → pixel_at buf j = pixel_at image_buf j.
Proof.
  intros Hrgba Hlen. destruct rgba as [[[r g] b] a].
  unfold convert_pixel. rewrite Hrgba. simpl.
  unfold RGBA_CHANNEL_COUNT in *.
  set (i := (y * av_w + x)%N) in *.
  rewrite store_ok by lia. simpl.
  rewrite store_ok by (rewrite length_insert; lia). simpl.
  rewrite store_ok by (rewrite !length_insert; lia). simpl.
  rewrite store_ok by (rewrite !length_insert; lia).
  eexists. split; [reflexivity|].
  split; [rewrite !length_insert; reflexivity|].
  split.
  - unfold pixel_at.
    rewrite !(cell_insert_ne _ _ (i * 4 + 0)) by lia.
    rewrite (cell_insert_eq _ (i * 4 + 0)) by lia. simpl.
    rewrite !(cell_insert_ne _ _ (i * 4 + 1)) by lia.
    rewrite (cell_insert_eq _ (i * 4 + 1)) by (rewrite ?length_insert; lia). simpl.
    rewrite !(cell_insert_ne _ _ (i * 4 + 2)) by lia.
    rewrite (cell_insert_eq _ (i * 4 + 2)) by (rewrite ?length_insert; lia). simpl.
    rewrite (cell_insert_eq _ (i * 4 + 3)) by (rewrite ?length_insert; lia).
    reflexivity.
  - intros j Hj. unfold pixel_at.
    rewrite !cell_insert_ne by lia. reflexivity.
Qed.

(** The inner loop, started at column [x] of row [y] with [iters] columns
    to go: it fills the rest of the row and touches nothing else. *)
Lemma row_loop_ok av_pixels av_w av_ch y :
  ∀ iters x image_buf,
    (x + N.of_nat iters = av_w)%N →
    (∀ i, (i < (y + 1) * av_w)%N → is_Some (pixel_rgba av_pixels av_ch i)) →
    (N.to_nat ((y + 1) * av_w * 4) <= length image_buf)%nat →
    ∃ buf,
      row_loop av_pixels av_w av_ch y x iters image_buf = Some buf
      ∧ length buf = length image_buf
      ∧ (∀ j, (y * av_w + x <= j < (y + 1) * av_w)%N →
              pixel_at buf j = pixel_rgba av_pixels av_ch j)
      ∧ (∀ j, ¬ (y * av_w + x <= j < (y + 1) * av_w)%N →
              pixel_at buf j = pixel_at image_buf j).
Proof.
  induction iters as [|k IH]; intros x image_buf Hx Hsrc Hlen.
  - exists image_buf. repeat split; auto. intros j Hj. lia.
  - destruct (Hsrc (y * av_w + x)%N) as [rgba Hrgba]; [lia|].
    destruct (convert_pixel_ok av_pixels av_w av_ch y x image_buf rgba Hrgba)
      as (buf1 & Hrun1 & Hlen1 & Hat1 & Hother1); [lia|].
    destruct (IH (x + 1)%N buf1) as (buf & Hrun & Hlen2 & Hin & Hout);
      [lia|assumption|lia|].
    exists buf. simpl. rewrite Hrun1. simpl.
    split; [exact Hrun|]. split; [lia|]. split.
    + intros j Hj. destruct (N.eq_dec j (y * av_w + x)%N) as [->|Hne].
      * rewrite Hout by lia. rewrite Hat1. symmetry. exact Hrgba.
      * apply Hin. lia.
    + intros j Hj. rewrite Hout by lia. apply Hother1. lia.
Qed.

(** The outer loop, started at row [y] with [iters] rows to go. *)
Lemma image_loop_ok av_pixels av_w av_h av_ch :
  ∀ iters y image_buf,
    (y + N.of_nat iters = av_h)%N →
    (∀ i, (i < av_h * av_w)%N → is_Some (pixel_rgba av_pixels av_ch i)) →
    (N.to_nat (av_h * av_w * 4) <= length image_buf)%nat →
    ∃ buf,
      image_loop av_pixels av_w av_ch y iters image_buf = Some buf
      ∧ length buf = length image_buf
      ∧ (∀ j, (y * av_w <= j < av_h * av_w)%N →
              pixel_at buf j = pixel_rgba av_pixels av_ch j)
      ∧ (∀ j, ¬ (y * av_w <= j < av_h * av_w)%N →
              pixel_at buf j = pixel_at image_buf j).
Proof.
  induction iters as [|k IH]; intros y image_buf Hy Hsrc Hlen.
  - exists image_buf. repeat split; auto. intros j Hj.
    replace y with av_h in Hj by lia. lia.
  - assert (Hrow : ((y + 1) * av_w <= av_h * av_w)%N)
      by (apply N.mul_le_mono_r; lia).
    destruct (row_loop_ok av_pixels av_w av_ch y (N.to_nat av_w) 0%N image_buf)
      as (buf1 & Hrun1 & Hlen1 & Hin1 & Hout1).
    { lia. }
    { intros i Hi. apply Hsrc. lia. }
    { lia. }
    destruct (IH (y + 1)%N buf1) as (buf & Hrun & Hlen2 & Hin & Hout);
      [lia|assumption|lia|].
    exists buf. simpl. rewrite Hrun1. simpl.
    split; [exact Hrun|]. split; [lia|]. split.
    + intros j Hj. destruct (N.lt_ge_cases j ((y + 1) * av_w)%N) as [Hlt|Hge].
      * rewrite Hout by lia. apply Hin1. lia.
      * apply Hin. lia.
    + intros j Hj. rewrite Hout by lia. apply Hout1. lia.
Qed.

(** A source of [src_needed] bytes is enough for every pixel the loops visit. *)
Lemma src_needed_enough av_pixels av_w av_h av_ch i :
  (N.to_nat (src_needed av_w av_h av_ch) <= length av_pixels)%nat →
  (i < truncate_dim av_h MAX_AVATAR_H * truncate_dim av_w MAX_AVATAR_W)%N →
  is_Some (pixel_rgba av_pixels av_ch i).
Proof.
  unfold src_needed. intros Hlen Hi. apply pixel_rgba_defined.
  set (k := if (av_ch =? RGBA_CHANNEL_COUNT)%N then 4%N
            else if (av_ch =? RGB_CHANNEL_COUNT)%N then 3%N else 1%N) in *.
  set (a := truncate_dim av_w MAX_AVATAR_W) in *.
  set (b := truncate_dim av_h MAX_AVATAR_H) in *.
  assert (((i + 1) * k <= a * b * k)%N) by (apply N.mul_le_mono_r; lia).
  lia.
Qed.

(** The conversion as a whole: with enough source bytes both loops run to
    the end, the block keeps its [width * height * 4] cells, and pixel [i]
    of the result is the r, g, b, a computed from source pixel [i]. *)
Lemma normalized_ok av_pixels av_w av_h av_ch :
  (N.to_nat (src_needed av_w av_h av_ch) <= length av_pixels)%nat →
  ∃ out,
    normalized av_pixels av_w av_h av_ch = Some out
    ∧ length out
      = N.to_nat (truncate_dim av_w MAX_AVATAR_W
                  * truncate_dim av_h MAX_AVATAR_H * 4)
    ∧ ∀ i, (i < truncate_dim av_w MAX_AVATAR_W
                * truncate_dim av_h MAX_AVATAR_H)%N →
           pixel_at out i = pixel_rgba av_pixels av_ch i
           ∧ is_Some (pixel_rgba av_pixels av_ch i).
Proof.
  intros Hsrc. unfold normalized. rewrite image_buf_len_truncated.
  set (a := truncate_dim av_w MAX_AVATAR_W) in *.
  set (b := truncate_dim av_h MAX_AVATAR_H) in *.
  destruct (image_loop_ok av_pixels a b av_ch (N.to_nat b) 0%N
              (replicate (N.to_nat (a * b * 4)) None))
    as (out & Hrun & Hlen & Hin & _).
  { lia. }
  { intros i Hi. eapply src_needed_enough; eassumption. }
  { rewrite length_replicate. lia. }
  exists out. split; [exact Hrun|].
  split; [rewrite Hlen, length_replicate; reflexivity|].
  intros i Hi. split.
  - apply Hin. lia.
  - eapply src_needed_enough; [eassumption|]. fold a b. lia.
Qed.

(** Reading the four cells of a pixel back, cell by cell. *)
Lemma pixel_at_cells image_buf i r g b a :
  pixel_at image_buf i = Some (r, g, b, a) →
  image_buf !! N.to_nat (i * 4 + 0) = Some (Some r)
  ∧ image_buf !! N.to_nat (i * 4 + 1) = Some (Some g)
  ∧ image_buf !! N.to_nat (i * 4 + 2) = Some (Some b)
  ∧ image_buf !! N.to_nat (i * 4 + 3) = Some (Some a).
Proof.
  unfold pixel_at, cell. intros H.
  destruct (image_buf !! N.to_nat (i * 4 + 0)) as [[?|]|]; [|discriminate..].
  destruct (image_buf !! N.to_nat (i * 4 + 1)) as [[?|]|]; [|discriminate..].
  destruct (image_buf !! N.to_nat (i * 4 + 2)) as [[?|]|]; [|discriminate..].
  destruct (image_buf !! N.to_nat (i * 4 + 3)) as [[?|]|]; [|discriminate..].
  simpl in H. inversion H. auto.
Qed.

(** [set_player_avatar] with a successful [malloc], as one equation: the
    block is the fresh one and receives the [normalized] image. *)
Lemma set_player_avatar_alloc target_player av_pixels av_w av_h av_ch s :
  set_player_avatar true target_player av_pixels av_w av_h av_ch s
  = (cells ← normalized av_pixels av_w av_h av_ch;
     p ← g_players s !! N.to_nat target_player;
     hp ← free (avatar p) (<[fresh (dom (heap s)) := cells]> (heap s));
     Some (true,
           mkState
             (<[N.to_nat target_player :=
                  with_tex_dirty true (with_ch RGBA_CHANNEL_COUNT
                    (with_h (truncate_dim av_h MAX_AVATAR_H)
                      (with_w (truncate_dim av_w MAX_AVATAR_W)
                        (with_avatar (Some (fresh (dom (heap s)))) p))))]>
                (g_players s))
             (g_player_count s) (g_next_player_id s) hp)).
Proof.
  unfold set_player_avatar, normalized, malloc.
  rewrite lookup_insert_eq. simpl.
  destruct (image_loop _ _ _ _ _ _) as [cells|]; [|reflexivity]. simpl.
  rewrite insert_insert_eq. reflexivity.
Qed.

Lemma fresh_block_not_live (hp : gmap positive (list (option byte))) :
  hp !! fresh (dom hp) = None.
Proof. apply not_elem_of_dom, is_fresh. Qed.

(** The pixel is computed exactly when each of its reads is inside the source. *)
Lemma pixel_rgba_reads av_pixels av_ch i :
  is_Some (pixel_rgba av_pixels av_ch i)
  ↔ Forall (λ n, (N.to_nat n < length av_pixels)%nat) (source_reads av_ch i).
Proof.
  unfold pixel_rgba, source_reads, load.
  destruct (av_ch =? RGBA_CHANNEL_COUNT)%N;
    [|destruct (av_ch =? RGB_CHANNEL_COUNT)%N].
  all: rewrite ?Forall_cons, Forall_nil.
  all: split.
  all: try (intros H;
            repeat match goal with
                   | H : is_Some (?l !! ?n ≫= _) |- _ =>
                       let E := fresh "E" in
                       destruct (l !! n) eqn:E; simpl in H;
                       [apply lookup_lt_Some in E|destruct H; discriminate]
                   end; tauto).
  all: intros H;
    repeat match goal with
           | H : _ ∧ _ |- _ => destruct H
           | H : (N.to_nat ?n < length ?l)%nat |- _ =>
               apply lookup_lt_is_Some_2 in H as [? ->]; simpl
           end; eexists; reflexivity.
Qed.

(** ** Avatar conversion: the claims *)

(** C5. The image that [set_player_avatar] stores depends on the pixels,
    the width, the height and the channel count only. With a source that
    holds the bytes the loops address, it has exactly
    [clamped width * clamped height * 4] bytes, and pixel [i] is: for channel
    count 4 the four source bytes of pixel [i]; for channel count 3 its
    three source bytes and 255; for any other channel count the source byte
    [i] three times and 255. *)
Theorem avatar_conversion_bytes av_pixels av_w av_h av_ch :
  (N.to_nat (src_needed av_w av_h av_ch) <= length av_pixels)%nat →
  ∃ out,
    normalized av_pixels av_w av_h av_ch = Some out
    ∧ (∀ target_player s,
         set_player_avatar true target_player av_pixels av_w av_h av_ch s
         = (p ← g_players s !! N.to_nat target_player;
            hp ← free (avatar p) (<[fresh (dom (heap s)) := out]> (heap s));
            Some (true,
                  mkState
                    (<[N.to_nat target_player :=
                         with_tex_dirty true (with_ch RGBA_CHANNEL_COUNT
                           (with_h (truncate_dim av_h MAX_AVATAR_H)
                             (with_w (truncate_dim av_w MAX_AVATAR_W)
                               (with_avatar (Some (fresh (dom (heap s)))) p))))]>
                       (g_players s))
                    (g_player_count s) (g_next_player_id s) hp)))
    ∧ length out
      = N.to_nat (truncate_dim av_w MAX_AVATAR_W
                  * truncate_dim av_h MAX_AVATAR_H * 4)
    ∧ ∀ i, (i < truncate_dim av_w MAX_AVATAR_W
                * truncate_dim av_h MAX_AVATAR_H)%N →
        (av_ch = 4%N →
           ∃ r g b a,
             av_pixels !! N.to_nat (i * 4 + 0) = Some r
             ∧ av_pixels !! N.to_nat (i * 4 + 1) = Some g
             ∧ av_pixels !! N.to_nat (i * 4 + 2) = Some b
             ∧ av_pixels !! N.to_nat (i * 4 + 3) = Some a
             ∧ out !! N.to_nat (i * 4 + 0) = Some (Some r)
             ∧ out !! N.to_nat (i * 4 + 1) = Some (Some g)
             ∧ out !! N.to_nat (i * 4 + 2) = Some (Some b)
             ∧ out !! N.to_nat (i * 4 + 3) = Some (Some a))
        ∧ (av_ch = 3%N →
           ∃ r g b,
             av_pixels !! N.to_nat (i * 3 + 0) = Some r
             ∧ av_pixels !! N.to_nat (i * 3 + 1) = Some g
             ∧ av_pixels !! N.to_nat (i * 3 + 2) = Some b
             ∧ out !! N.to_nat (i * 4 + 0) = Some (Some r)
             ∧ out !! N.to_nat (i * 4 + 1) = Some (Some g)
             ∧ out !! N.to_nat (i * 4 + 2) = Some (Some b)
             ∧ out !! N.to_nat (i * 4 + 3) = Some (Some xff))
        ∧ (av_ch ≠ 4%N → av_ch ≠ 3%N →
           ∃ v,
             av_pixels !! N.to_nat i = Some v
             ∧ out !! N.to_nat (i * 4 + 0) = Some (Some v)
             ∧ out !! N.to_nat (i * 4 + 1) = Some (Some v)
             ∧ out !! N.to_nat (i * 4 + 2) = Some (Some v)
             ∧ out !! N.to_nat (i * 4 + 3) = Some (Some xff)).
Proof.
  intros Hsrc.
  destruct (normalized_ok av_pixels av_w av_h av_ch Hsrc) as (out & Hrun & Hlen & Hpix).
  exists out. split; [exact Hrun|].
  split.
  { intros tp s. rewrite set_player_avatar_alloc, Hrun. reflexivity. }
  split; [exact Hlen|].
  intros i Hi. destruct (Hpix i Hi) as (Hat & [[[[r g] b] a] Hrgba]).
  rewrite Hrgba in Hat. apply pixel_at_cells in Hat.
  destruct Hat as (H0 & H1 & H2 & H3).
  unfold pixel_rgba, load, RGBA_CHANNEL_COUNT, RGB_CHANNEL_COUNT in Hrgba.
  split; [|split].
  - intros ->. simpl in Hrgba.
    destruct (av_pixels !! N.to_nat (i * 4 + 0)) as [r'|]; [|discriminate].
    destruct (av_pixels !! N.to_nat (i * 4 + 1)) as [g'|]; [|discriminate].
    destruct (av_pixels !! N.to_nat (i * 4 + 2)) as [b'|]; [|discriminate].
    destruct (av_pixels !! N.to_nat (i * 4 + 3)) as [a'|]; [|discriminate].
    simpl in Hrgba. inversion Hrgba; subst. eauto 12.
  - intros ->. simpl in Hrgba.
    destruct (av_pixels !! N.to_nat (i * 3 + 0)) as [r'|]; [|discriminate].
    destruct (av_pixels !! N.to_nat (i * 3 + 1)) as [g'|]; [|discriminate].
    destruct (av_pixels !! N.to_nat (i * 3 + 2)) as [b'|]; [|discriminate].
    simpl in Hrgba. inversion Hrgba; subst. eauto 12.
  - intros H4 H3'.
    apply N.eqb_neq in H4. apply N.eqb_neq in H3'. rewrite H4, H3' in Hrgba.
    destruct (av_pixels !! N.to_nat i) as [v|]; [|discriminate].
    simpl in Hrgba. inversion Hrgba; subst. eauto 12.
Qed.

Lemma avatar_conversion_bytes_witness :
  ∃ out,
    normalized [x0a; x14; x1e; x0a; x14; x1e] 2 1 3 = Some out
    ∧ length out = 8%nat.
Proof.
  destruct (avatar_conversion_bytes [x0a; x14; x1e; x0a; x14; x1e] 2 1 3)
    as (out & Hrun & _ & Hlen & _).
  - vm_compute. lia.
  - exists out. split; [exact Hrun|exact Hlen].
Defined.

(** The three conversions on small images. *)
Example grayscale_2x2_zero :
  normalized [x00; x00; x00; x00] 2 2 1
  = Some (map Some [x00; x00; x00; xff; x00; x00; x00; xff;
                    x00; x00; x00; xff; x00; x00; x00; xff]).
Proof. reflexivity. Qed.

Example rgb_gets_opaque_alpha :
  normalized [x0a; x14; x1e] 1 1 3 = Some (map Some [x0a; x14; x1e; xff]).
Proof. reflexivity. Qed.

Example rgba_passes_through :
  normalized [x0a; x14; x1e; x28] 1 1 4 = Some (map Some [x0a; x14; x1e; x28]).
Proof. reflexivity. Qed.

(** C7 as stated fails for channel count 0: a 1x1 image with 0 channels has
    a source of [1 * 1 * 0 = 0] bytes, the grayscale branch reads
    [av_pixels[0]], and that read is outside the source. *)
Lemma zero_channels_read_out_of_bounds :
  length ([] : list byte) = N.to_nat (1 * 1 * 0)
  ∧ truncate_dim 1 MAX_AVATAR_W = 1%N
  ∧ truncate_dim 1 MAX_AVATAR_H = 1%N
  ∧ source_reads 0 0 = [0%N]
  ∧ ¬ (N.to_nat 0 < length ([] : list byte))%nat
  ∧ normalized [] 1 1 0 = None.
Proof. repeat split. vm_compute. lia. Qed.

(** C7, amended to channel counts of at least 1. A width or height above 8
    is truncated to 8; and when the source holds at least
    [width * height * channel_count] bytes, every source index that the
    loops read is inside the source, so that the conversion runs to its
    end. *)
Theorem source_reads_in_bounds av_pixels av_w av_h av_ch :
  av_ch ≠ 0%N →
  (N.to_nat (av_w * av_h * av_ch) <= length av_pixels)%nat →
  ((MAX_AVATAR_W < av_w)%N → truncate_dim av_w MAX_AVATAR_W = MAX_AVATAR_W)
  ∧ ((MAX_AVATAR_H < av_h)%N → truncate_dim av_h MAX_AVATAR_H = MAX_AVATAR_H)
  ∧ (∀ i n,
       (i < truncate_dim av_w MAX_AVATAR_W * truncate_dim av_h MAX_AVATAR_H)%N →
       n ∈ source_reads av_ch i →
       (N.to_nat n < length av_pixels)%nat)
  ∧ is_Some (normalized av_pixels av_w av_h av_ch).
Proof.
  intros Hch Hlen.
  assert (Hsrc : (N.to_nat (src_needed av_w av_h av_ch) <= length av_pixels)%nat).
  { pose proof (truncate_dim_le_arg av_w MAX_AVATAR_W) as Hw.
    pose proof (truncate_dim_le_arg av_h MAX_AVATAR_H) as Hh.
    unfold src_needed, RGBA_CHANNEL_COUNT, RGB_CHANNEL_COUNT.
    set (a := truncate_dim av_w MAX_AVATAR_W) in *.
    set (b := truncate_dim av_h MAX_AVATAR_H) in *.
    assert (Hab : (a * b <= av_w * av_h)%N) by (apply N.mul_le_mono; assumption).
    assert (Hk : ((if (av_ch =? 4)%N then 4 else if (av_ch =? 3)%N then 3 else 1)
                  <= av_ch)%N).
    { destruct (N.eqb_spec av_ch 4); [lia|].
      destruct (N.eqb_spec av_ch 3); lia. }
    set (k := if (av_ch =? 4)%N then 4%N else if (av_ch =? 3)%N then 3%N else 1%N) in *.
    assert ((a * b * k <= av_w * av_h * av_ch)%N) by (apply N.mul_le_mono; assumption).
    lia. }
  split; [apply truncate_dim_above|].
  split; [apply truncate_dim_above|].
  split.
  - intros i n Hi Hn.
    assert (Hpix : is_Some (pixel_rgba av_pixels av_ch i)).
    { eapply src_needed_enough; [exact Hsrc|]. lia. }
    apply pixel_rgba_reads in Hpix. rewrite Forall_forall in Hpix.
    apply Hpix, Hn.
  - destruct (normalized_ok av_pixels av_w av_h av_ch Hsrc) as (out & -> & _).
    eexists. reflexivity.
Qed.

Lemma source_reads_in_bounds_witness :
  truncate_dim 9 MAX_AVATAR_W = MAX_AVATAR_W
  ∧ is_Some (normalized (replicate 18 x7f) 9 2 1).
Proof.
  destruct (source_reads_in_bounds (replicate 18 x7f) 9 2 1) as (Hw & _ & _ & Hrun).
  - discriminate.
  - vm_compute. lia.
  - split; [apply Hw; reflexivity|exact Hrun].
Defined.

(** C8. When the allocation of line 188 fails, [set_player_avatar] returns
    false and the whole state, the target row with it, is as before. *)
Theorem alloc_failure_changes_nothing target_player av_pixels av_w av_h av_ch s :
  set_player_avatar false target_player av_pixels av_w av_h av_ch s
  = Some (false, s).
Proof. reflexivity. Qed.




(** ** The wire helpers: one pass of each loop *)

Lemma to_ssize_small n : (Z.of_N n <= SSIZE_MAX)%Z → to_ssize n = Z.of_N n.
Proof.
  unfold to_ssize, usize, SSIZE_MAX.
  change (2 ^ 63)%Z with 9223372036854775808%Z.
  change (2 ^ 64)%N with 18446744073709551616%N.
  intros Hn. rewrite N.mod_small by lia.
  destruct (Z.leb_spec (Z.of_N n) (9223372036854775808 - 1)); lia.
Qed.

Lemma usize_small n : (Z.of_N n <= SSIZE_MAX)%Z → usize n = n.
Proof.
  unfold usize, SSIZE_MAX.
  change (2 ^ 63)%Z with 9223372036854775808%Z.
  change (2 ^ 64)%N with 18446744073709551616%N.
  intros Hn. apply N.mod_small. lia.
Qed.

Lemma recvall_loop_done io fuel c buf len nrecv :
  (len <= nrecv)%N →
  recvall_loop io fuel c buf len nrecv = Some (to_ssize nrecv, buf, c).
Proof.
  intros Hle. apply N.leb_le in Hle. destruct fuel; simpl; rewrite Hle; reflexivity.
Qed.

Lemma recvall_loop_closed io k rest out wr e buf len nrecv :
  (nrecv < len)%N →
  recvall_loop io (S k) (mkConn (RecvClosed :: rest) out wr e) buf len nrecv
  = Some (0%Z, buf, mkConn rest out wr e).
Proof.
  intros Hlt. apply N.leb_gt in Hlt. simpl. rewrite Hlt. reflexivity.
Qed.

(** A pass whose [recv] fails: the test of line 37 sees what [perror] has
    left in [errno]. *)
Lemma recvall_loop_error io k rest out wr e e' buf len nrecv :
  (nrecv < len)%N →
  recvall_loop io (S k) (mkConn (RecvError e' :: rest) out wr e) buf len nrecv
  = if (perror io (mkConn rest out wr e') =? EINTR)%Z
    then recvall_loop io k
           (mkConn rest out wr
              (printf io (mkConn rest out wr (perror io (mkConn rest out wr e')))))
           buf len nrecv
    else Some ((-1)%Z, buf,
               mkConn rest out wr (perror io (mkConn rest out wr e'))).
Proof.
  intros Hlt. apply N.leb_gt in Hlt. cbn [recvall_loop]. rewrite Hlt.
  reflexivity.
Qed.

(** A pass that reads data: [pfx] are the bytes received so far, [sfx] is
    the rest of the caller's buffer. *)
Lemma recvall_loop_data io k b bs rest out wr e pfx sfx len :
  (N.of_nat (length pfx) < len)%N →
  (Z.of_N len <= SSIZE_MAX)%Z →
  (N.to_nat len <= length (pfx ++ sfx))%nat →
  recvall_loop io (S k) (mkConn (RecvData b bs :: rest) out wr e)
    (pfx ++ sfx) len (N.of_nat (length pfx))
  = recvall_loop io k
      (mkConn (requeue (drop (N.to_nat len - length pfx) (b :: bs)) rest) out wr e)
      ((pfx ++ take (N.to_nat len - length pfx) (b :: bs))
         ++ drop (length (take (N.to_nat len - length pfx) (b :: bs))) sfx)
      len
      (N.of_nat (length (pfx ++ take (N.to_nat len - length pfx) (b :: bs)))).
Proof.
  intros Hlt Hmax Hbuf.
  pose proof Hlt as Hlt'. apply N.leb_gt in Hlt'.
  cbn [recvall_loop]. rewrite Hlt'. unfold recv. cbn [incoming].
  replace (N.to_nat (len - N.of_nat (length pfx)))
    with (N.to_nat len - length pfx)%nat by lia.
  set (data := take (N.to_nat len - length pfx) (b :: bs)).
  assert (Hdata : (1 <= length data <= N.to_nat len - length pfx)%nat).
  { unfold data. rewrite length_take. simpl. lia. }
  cbn [mbind option_bind errno outgoing wire].
  destruct (Z.eqb_spec (Z.of_nat (length data)) 0) as [|_]; [lia|].
  destruct (Z.ltb_spec (Z.of_nat (length data)) 0) as [|_]; [lia|].
  rewrite length_app in Hbuf.
  unfold write_at. rewrite decide_True by (rewrite length_app; lia).
  cbn [mbind option_bind].
  rewrite Nat2N.id, take_app_length, drop_app_add.
  rewrite usize_small by lia.
  f_equal.
  - rewrite <- app_assoc. reflexivity.
  - rewrite length_app. lia.
Qed.

(** ** recvall: runs of data and interrupted calls *)

Section recvall_runs.
Variable io : stdio.
Variable len : N.
Variable post : list recv_event.
Variable out : list send_event.
Variable wr : list byte.
Hypothesis Hmax : (Z.of_N len <= SSIZE_MAX)%Z.

(** A run that delivers fewer bytes than are still missing is consumed
    whole; the loop is then in front of the events that follow. *)
Lemma recvall_loop_consume :
  ∀ pre fuel e pfx sfx,
    forallb retried pre = true →
    (existsb recv_failed pre = true → leaves_errno io) →
    (length pre < fuel)%nat →
    (length pfx + length (recv_bytes pre) < N.to_nat len)%nat →
    (N.to_nat len <= length (pfx ++ sfx))%nat →
    ∃ e',
      recvall_loop io fuel (mkConn (pre ++ post) out wr e) (pfx ++ sfx) len
        (N.of_nat (length pfx))
      = recvall_loop io (fuel - length pre) (mkConn post out wr e')
          ((pfx ++ recv_bytes pre) ++ drop (length (recv_bytes pre)) sfx) len
          (N.of_nat (length (pfx ++ recv_bytes pre))).
Proof.
  induction pre as [|ev pre IH]; intros fuel e pfx sfx Hret Hio Hfuel Hshort Hbuf.
  - exists e. simpl. rewrite Nat.sub_0_r, !app_nil_r. reflexivity.
  - destruct fuel as [|k]; [simpl in Hfuel; lia|].
    simpl in Hret. apply andb_true_iff in Hret as [Hev Hret].
    simpl in Hfuel.
    destruct ev as [b bs| |e1]; [| discriminate |].
    + change (recv_bytes (RecvData b bs :: pre))
        with ((b :: bs) ++ recv_bytes pre) in *.
      rewrite length_app in Hshort.
      change ((RecvData b bs :: pre) ++ post)
        with (RecvData b bs :: (pre ++ post)).
      rewrite recvall_loop_data by (assumption || lia).
      rewrite take_ge, drop_ge by lia. cbn [requeue].
      assert (Hbuf' : (N.to_nat len <= length pfx + length sfx)%nat)
        by (rewrite length_app in Hbuf; exact Hbuf).
      destruct (IH k e (pfx ++ b :: bs) (drop (length (b :: bs)) sfx))
        as [e' Hrun]; [assumption|exact Hio|lia|rewrite length_app; lia| |].
      { rewrite !length_app, length_drop. lia. }
      exists e'. rewrite Hrun. cbn [length Nat.sub].
      rewrite drop_drop. f_equal.
      * rewrite <- !app_assoc, length_app. reflexivity.
      * rewrite <- !app_assoc. reflexivity.
    + change (recv_bytes (RecvError e1 :: pre)) with (recv_bytes pre) in *.
      change ((RecvError e1 :: pre) ++ post)
        with (RecvError e1 :: (pre ++ post)).
      rewrite recvall_loop_error by lia.
      rewrite (Hio eq_refl). cbn [errno].
      simpl in Hev. rewrite Hev.
      destruct (IH k (printf io (mkConn (pre ++ post) out wr e1)) pfx sfx)
        as [e' Hrun]; [assumption|intros _; exact (Hio eq_refl)|lia|lia|assumption|].
      exists e'. exact Hrun.
Qed.

(** A run that delivers at least the missing bytes ends the loop with
    [len]: the buffer holds the bytes received before, then the first
    missing bytes of the run, then what it held beyond [len]. *)
Lemma recvall_loop_enough :
  ∀ pre fuel e pfx sfx,
    forallb retried pre = true →
    (existsb recv_failed pre = true → leaves_errno io) →
    (length pre < fuel)%nat →
    (length pfx <= N.to_nat len <= length pfx + length (recv_bytes pre))%nat →
    (N.to_nat len <= length (pfx ++ sfx))%nat →
    ∃ c',
      recvall_loop io fuel (mkConn (pre ++ post) out wr e) (pfx ++ sfx) len
        (N.of_nat (length pfx))
      = Some (Z.of_N len,
              pfx ++ take (N.to_nat len - length pfx) (recv_bytes pre)
                ++ drop (N.to_nat len - length pfx) sfx,
              c').
Proof.
  induction pre as [|ev pre IH]; intros fuel e pfx sfx Hret Hio Hfuel Hlen Hbuf.
  - simpl in Hlen. eexists.
    rewrite recvall_loop_done by lia.
    rewrite to_ssize_small by lia.
    replace (N.to_nat len - length pfx)%nat with 0%nat by lia.
    simpl. f_equal. f_equal. f_equal. lia.
  - destruct (Nat.eq_dec (length pfx) (N.to_nat len)) as [Hfull|Hmore].
    { eexists. rewrite recvall_loop_done by lia.
      rewrite to_ssize_small by lia.
      replace (N.to_nat len - length pfx)%nat with 0%nat by lia.
      rewrite take_0, drop_0. simpl. f_equal. f_equal. f_equal. lia. }
    destruct fuel as [|k]; [simpl in Hfuel; lia|].
    simpl in Hret. apply andb_true_iff in Hret as [Hev Hret].
    simpl in Hfuel.
    assert (Hbuf' : (N.to_nat len <= length pfx + length sfx)%nat)
      by (rewrite length_app in Hbuf; exact Hbuf).
    destruct ev as [b bs| |e1]; [| discriminate |].
    + change (recv_bytes (RecvData b bs :: pre))
        with ((b :: bs) ++ recv_bytes pre) in *.
      rewrite length_app in Hlen.
      change ((RecvData b bs :: pre) ++ post)
        with (RecvData b bs :: (pre ++ post)).
      rewrite recvall_loop_data by (assumption || lia).
      set (n := (N.to_nat len - length pfx)%nat) in *.
      destruct (Nat.le_gt_cases (length (b :: bs)) n) as [Hfit|Hbig].
      * rewrite (take_ge (b :: bs)), (drop_ge (b :: bs)) by lia. cbn [requeue].
        destruct (IH k e (pfx ++ b :: bs) (drop (length (b :: bs)) sfx))
          as [c' Hrun]; [assumption|exact Hio|lia|rewrite length_app; lia| |].
        { rewrite !length_app, length_drop. lia. }
        exists c'. rewrite Hrun. f_equal. f_equal.
        rewrite <- app_assoc. f_equal.
        rewrite take_app_ge by lia. rewrite <- app_assoc. f_equal.
        rewrite length_app, drop_drop.
        replace (N.to_nat len - (length pfx + length (b :: bs)))%nat
          with (n - length (b :: bs))%nat by lia.
        replace (length (b :: bs) + (n - length (b :: bs)))%nat with n by lia.
        reflexivity.
      * eexists. rewrite recvall_loop_done
          by (rewrite length_app, length_take; lia).
        rewrite to_ssize_small
          by (rewrite length_app, length_take; lia).
        rewrite (take_app_le (b :: bs)) by lia.
        rewrite length_take, <- app_assoc.
        replace (n `min` length (b :: bs))%nat with n by lia.
        replace (N.of_nat (length (pfx ++ take n (b :: bs)))) with len
          by (rewrite length_app, length_take; subst n; lia).
        reflexivity.
    + change (recv_bytes (RecvError e1 :: pre)) with (recv_bytes pre) in *.
      change ((RecvError e1 :: pre) ++ post)
        with (RecvError e1 :: (pre ++ post)).
      rewrite recvall_loop_error by lia.
      rewrite (Hio eq_refl). cbn [errno].
      simpl in Hev. rewrite Hev.
      destruct (IH k (printf io (mkConn (pre ++ post) out wr e1)) pfx sfx)
        as [c' Hrun]; [assumption|intros _; exact (Hio eq_refl)|lia|lia|assumption|].
      exists c'. exact Hrun.
Qed.

End recvall_runs.

(** Whatever is scripted, a call of [recvall] that returns gives [len], 0
    or -1. *)
Lemma recvall_loop_outcomes io len :
  (Z.of_N len <= SSIZE_MAX)%Z →
  ∀ fuel c buf nrecv r buf' c',
    (nrecv <= len)%N →
    recvall_loop io fuel c buf len nrecv = Some (r, buf', c') →
    r = Z.of_N len ∨ r = 0%Z ∨ r = (-1)%Z.
Proof.
  intros Hmax. induction fuel as [|k IH]; intros c buf nrecv r buf' c' Hle Hrun.
  - simpl in Hrun. destruct (N.leb_spec len nrecv) as [Hdone|_]; [|discriminate].
    inversion Hrun. left. replace nrecv with len by lia. apply to_ssize_small, Hmax.
  - destruct (N.leb_spec len nrecv) as [Hdone|Hlt].
    { rewrite recvall_loop_done in Hrun by assumption.
      inversion Hrun. left. replace nrecv with len by lia.
      apply to_ssize_small, Hmax. }
    destruct c as [inc out wr e]. destruct inc as [|[b bs| |e1] rest].
    + apply N.leb_gt in Hlt. simpl in Hrun. rewrite Hlt in Hrun. discriminate.
    + pose proof Hlt as Hlt'. apply N.leb_gt in Hlt'.
      cbn [recvall_loop] in Hrun. rewrite Hlt' in Hrun.
      unfold recv in Hrun. cbn [incoming mbind option_bind] in Hrun.
      set (data := take (N.to_nat (len - nrecv)) (b :: bs)) in *.
      assert (Hdata : (1 <= length data <= N.to_nat (len - nrecv))%nat).
      { unfold data. rewrite length_take. simpl. lia. }
      destruct (Z.eqb_spec (Z.of_nat (length data)) 0) as [|_]; [lia|].
      destruct (Z.ltb_spec (Z.of_nat (length data)) 0) as [|_]; [lia|].
      destruct (write_at buf nrecv data) as [buf1|]; [|discriminate].
      cbn [mbind option_bind] in Hrun.
      apply IH in Hrun; [exact Hrun|].
      rewrite usize_small by lia. lia.
    + rewrite recvall_loop_closed in Hrun by assumption.
      inversion Hrun. auto.
    + rewrite recvall_loop_error in Hrun by assumption.
      destruct (_ =? EINTR)%Z.
      * apply IH in Hrun; assumption.
      * inversion Hrun. auto.
Qed.

(** ** sendall: one pass and runs *)

Lemma sendall_loop_done fuel c buf len nsent :
  (len <= nsent)%N →
  sendall_loop fuel c buf len nsent = Some (to_ssize nsent, c).
Proof.
  intros Hle. apply N.leb_le in Hle. destruct fuel; simpl; rewrite Hle; reflexivity.
Qed.

Lemma sendall_loop_some k n inc rest wr e buf len nsent :
  (nsent < len)%N →
  (Z.of_N len <= SSIZE_MAX)%Z →
  (N.to_nat len <= length buf)%nat →
  sendall_loop (S k) (mkConn inc (SendSome n :: rest) wr e) buf len nsent
  = sendall_loop k
      (mkConn inc rest
         (wr ++ take (N.to_nat (N.min (N.of_nat (S n)) (len - nsent)))
                  (drop (N.to_nat nsent) buf)) e)
      buf len (nsent + N.min (N.of_nat (S n)) (len - nsent)).
Proof.
  intros Hlt Hmax Hbuf. pose proof Hlt as Hlt'. apply N.leb_gt in Hlt'.
  cbn [sendall_loop]. rewrite Hlt'.
  unfold read_at. rewrite decide_True by lia.
  cbn [mbind option_bind]. unfold send. cbn [outgoing incoming wire errno].
  rewrite take_take.
  replace (S n `min` N.to_nat (len - nsent))%nat
    with (N.to_nat (N.min (N.of_nat (S n)) (len - nsent))) by lia.
  set (m := N.min (N.of_nat (S n)) (len - nsent)).
  assert (Hm : (1 <= m <= len - nsent)%N) by (unfold m; lia).
  assert (Hsent : length (take (N.to_nat m) (drop (N.to_nat nsent) buf))
                  = N.to_nat m).
  { rewrite length_take, length_drop. lia. }
  rewrite Hsent.
  cbn [mbind option_bind].
  destruct (Z.leb_spec (Z.of_nat (N.to_nat m)) 0) as [|_]; [lia|].
  rewrite usize_small by lia.
  f_equal. lia.
Qed.

Lemma sendall_loop_error k e' inc rest wr e buf len nsent :
  (nsent < len)%N →
  (N.to_nat len <= length buf)%nat →
  sendall_loop (S k) (mkConn inc (SendError e' :: rest) wr e) buf len nsent
  = if (e' =? EINTR)%Z
    then sendall_loop k (mkConn inc rest wr e') buf len nsent
    else Some ((-1)%Z, mkConn inc rest wr e').
Proof.
  intros Hlt Hbuf. pose proof Hlt as Hlt'. apply N.leb_gt in Hlt'.
  cbn [sendall_loop]. rewrite Hlt'.
  unfold read_at. rewrite decide_True by lia. reflexivity.
Qed.

Lemma sendall_loop_zero k inc rest wr e buf len nsent :
  (nsent < len)%N →
  (N.to_nat len <= length buf)%nat →
  sendall_loop (S k) (mkConn inc (SendZero :: rest) wr e) buf len nsent
  = if (e =? EINTR)%Z
    then sendall_loop k (mkConn inc rest wr e) buf len nsent
    else Some ((-1)%Z, mkConn inc rest wr e).
Proof.
  intros Hlt Hbuf. pose proof Hlt as Hlt'. apply N.leb_gt in Hlt'.
  cbn [sendall_loop]. rewrite Hlt'.
  unfold read_at. rewrite decide_True by lia. reflexivity.
Qed.

(** Whatever is scripted, a call of [sendall] that returns gives [len],
    with all of the remaining bytes on the wire, or -1, with fewer. *)
Lemma sendall_loop_sound len buf :
  (Z.of_N len <= SSIZE_MAX)%Z →
  (N.to_nat len <= length buf)%nat →
  ∀ fuel c nsent r c',
    (nsent <= len)%N →
    sendall_loop fuel c buf len nsent = Some (r, c') →
    ∃ k : N,
      wire c' = wire c ++ take (N.to_nat k) (drop (N.to_nat nsent) buf)
      ∧ ((r = Z.of_N len ∧ (nsent + k = len)%N)
         ∨ (r = (-1)%Z ∧ (nsent + k < len)%N)).
Proof.
  intros Hmax Hbuf.
  assert (Hdone : ∀ fuel c nsent r c',
            (nsent <= len)%N → (len <= nsent)%N →
            sendall_loop fuel c buf len nsent = Some (r, c') →
            ∃ k : N,
              wire c' = wire c ++ take (N.to_nat k) (drop (N.to_nat nsent) buf)
              ∧ ((r = Z.of_N len ∧ (nsent + k = len)%N)
                 ∨ (r = (-1)%Z ∧ (nsent + k < len)%N))).
  { intros fuel c nsent r c' H1 H2 Hrun.
    rewrite sendall_loop_done in Hrun by assumption. inversion Hrun; subst.
    exists 0%N. simpl. rewrite app_nil_r. split; [reflexivity|].
    left. split; [|lia]. replace nsent with len by lia.
    apply to_ssize_small, Hmax. }
  induction fuel as [|f IH]; intros c nsent r c' Hle Hrun.
  - destruct (N.leb_spec len nsent) as [Hd|Hlt]; [eauto|].
    apply N.leb_gt in Hlt. simpl in Hrun. rewrite Hlt in Hrun. discriminate.
  - destruct (N.leb_spec len nsent) as [Hd|Hlt]; [eauto|].
    destruct c as [inc out wr e]. destruct out as [|[n| |e1] rest].
    + pose proof Hlt as Hlt'. apply N.leb_gt in Hlt'.
      cbn [sendall_loop] in Hrun. rewrite Hlt' in Hrun.
      unfold read_at in Hrun. rewrite decide_True in Hrun by lia.
      discriminate.
    + rewrite sendall_loop_some in Hrun by assumption.
      set (m := N.min (N.of_nat (S n)) (len - nsent)) in *.
      apply IH in Hrun; [|lia].
      destruct Hrun as (k & Hwire & Hcase). cbn [wire] in *.
      exists (m + k)%N. split.
      * rewrite Hwire, <- app_assoc. f_equal.
        replace (N.to_nat (nsent + m)) with (N.to_nat nsent + N.to_nat m)%nat by lia.
        rewrite <- drop_drop, take_take_drop. f_equal. lia.
      * destruct Hcase as [[-> Hk]|[-> Hk]]; [left|right]; split; auto; lia.
    + rewrite sendall_loop_zero in Hrun by assumption.
      destruct (e =? EINTR)%Z.
      * apply IH in Hrun; assumption.
      * inversion Hrun; subst. exists 0%N. simpl. rewrite app_nil_r.
        split; [reflexivity|]. right. split; [reflexivity|lia].
    + rewrite sendall_loop_error in Hrun by assumption.
      destruct (e1 =? EINTR)%Z.
      * apply IH in Hrun; assumption.
      * inversion Hrun; subst. exists 0%N. simpl. rewrite app_nil_r.
        split; [reflexivity|]. right. split; [reflexivity|lia].
Qed.

Section sendall_runs.
Variable len : N.
Variable buf : list byte.
Variable inc : list recv_event.
Variable post : list send_event.
Hypothesis Hmax : (Z.of_N len <= SSIZE_MAX)%Z.
Hypothesis Hbuf : (N.to_nat len <= length buf)%nat.

(** A run of progress and interrupted calls that lets the missing bytes
    through ends the loop with [len]. *)
Lemma sendall_loop_enough :
  ∀ pre fuel e wr nsent,
    forallb send_retried pre = true →
    (length pre <= fuel)%nat →
    (nsent <= len)%N →
    (N.to_nat len <= N.to_nat nsent + send_capacity pre)%nat →
    ∃ c',
      sendall_loop fuel (mkConn inc (pre ++ post) wr e) buf len nsent
      = Some (Z.of_N len, c').
Proof.
  induction pre as [|ev pre IH]; intros fuel e wr nsent Hret Hfuel Hle Hcap.
  - simpl in Hcap. eexists. rewrite sendall_loop_done by lia.
    replace nsent with len by lia. rewrite to_ssize_small by assumption.
    reflexivity.
  - destruct (N.leb_spec len nsent) as [Hd|Hlt].
    { eexists. rewrite sendall_loop_done by lia.
      replace nsent with len by lia. rewrite to_ssize_small by assumption.
      reflexivity. }
    destruct fuel as [|k]; [simpl in Hfuel; lia|]. simpl in Hfuel.
    simpl in Hret. apply andb_true_iff in Hret as [Hev Hret].
    destruct ev as [n| |e1]; [| discriminate |].
    + change ((SendSome n :: pre) ++ post) with (SendSome n :: (pre ++ post)).
      rewrite sendall_loop_some by assumption.
      change (send_capacity (SendSome n :: pre))
        with (S n + send_capacity pre)%nat in Hcap.
      apply IH; [assumption|lia|lia|lia].
    + change ((SendError e1 :: pre) ++ post) with (SendError e1 :: (pre ++ post)).
      rewrite sendall_loop_error by assumption.
      simpl in Hev. rewrite Hev.
      change (send_capacity (SendError e1 :: pre))
        with (send_capacity pre) in Hcap.
      apply IH; [assumption|lia|lia|lia].
Qed.

(** A failure other than an interruption, met before all bytes are out,
    ends the loop with -1. *)
Lemma sendall_loop_fails e1 :
  e1 ≠ EINTR →
  ∀ pre fuel e wr nsent,
    forallb send_retried pre = true →
    (length pre < fuel)%nat →
    (N.to_nat nsent + send_capacity pre < N.to_nat len)%nat →
    ∃ wr',
      sendall_loop fuel (mkConn inc (pre ++ SendError e1 :: post) wr e)
        buf len nsent
      = Some ((-1)%Z, mkConn inc post wr' e1).
Proof.
  intros He1.
  induction pre as [|ev pre IH]; intros fuel e wr nsent Hret Hfuel Hcap.
  - destruct fuel as [|k]; [simpl in Hfuel; lia|].
    simpl in Hcap. exists wr. cbn [app].
    rewrite sendall_loop_error by (assumption || lia).
    apply Z.eqb_neq in He1. rewrite He1. reflexivity.
  - destruct fuel as [|k]; [simpl in Hfuel; lia|]. simpl in Hfuel.
    simpl in Hret. apply andb_true_iff in Hret as [Hev Hret].
    destruct ev as [n| |e2]; [| discriminate |].
    + change ((SendSome n :: pre) ++ SendError e1 :: post)
        with (SendSome n :: (pre ++ SendError e1 :: post)).
      change (send_capacity (SendSome n :: pre))
        with (S n + send_capacity pre)%nat in Hcap.
      rewrite sendall_loop_some by (assumption || lia).
      apply IH; [assumption|lia|lia].
    + change ((SendError e2 :: pre) ++ SendError e1 :: post)
        with (SendError e2 :: (pre ++ SendError e1 :: post)).
      change (send_capacity (SendError e2 :: pre))
        with (send_capacity pre) in Hcap.
      rewrite sendall_loop_error by (assumption || lia).
      simpl in Hev. rewrite Hev.
      apply IH; [assumption|lia|lia].
Qed.

End sendall_runs.

(** ** The wire helpers: all or nothing, with a harmless perror *)

(** When [perror] leaves [errno] as it is, and for a length that [ssize_t]
    can hold and a buffer of at least that many bytes:
    - a call of [recvall] that returns gives [len], 0 or -1;
    - when the stream delivers [len] bytes, in whatever fragments and with
      whatever interrupted calls in between, [recvall] returns [len] and
      the buffer starts with those bytes;
    - when the peer shuts down before that, [recvall] returns 0 and reads
      nothing after the shutdown;
    - when a call fails with an error other than [EINTR] before that,
      [recvall] returns -1;
    - a call of [sendall] that returns gives [len], with exactly the [len]
      bytes of the buffer added to the wire, or -1, with fewer;
    - when the transport takes [len] bytes, in whatever portions and with
      whatever interrupted calls, [sendall] returns [len]; when a call
      fails with another error before that, it returns -1.
    The parts on [sendall] and the first part on [recvall] do not use the
    assumption. *)
Theorem wire_helpers_all_or_nothing io c buf len :
  leaves_errno io →
  (Z.of_N len <= SSIZE_MAX)%Z →
  (N.to_nat len <= length buf)%nat →
  (∀ r buf' c',
     recvall io c buf len = Some (r, buf', c') →
     r = Z.of_N len ∨ r = 0%Z ∨ r = (-1)%Z)
  ∧ (∀ pre post,
       incoming c = pre ++ post →
       forallb retried pre = true →
       (N.to_nat len <= length (recv_bytes pre))%nat →
       ∃ c',
         recvall io c buf len
         = Some (Z.of_N len,
                 take (N.to_nat len) (recv_bytes pre) ++ drop (N.to_nat len) buf,
                 c'))
  ∧ (∀ pre post,
       incoming c = pre ++ RecvClosed :: post →
       forallb retried pre = true →
       (length (recv_bytes pre) < N.to_nat len)%nat →
       ∃ e',
         recvall io c buf len
         = Some (0%Z,
                 recv_bytes pre ++ drop (length (recv_bytes pre)) buf,
                 mkConn post (outgoing c) (wire c) e'))
  ∧ (∀ pre e1 post,
       incoming c = pre ++ RecvError e1 :: post →
       forallb retried pre = true →
       (length (recv_bytes pre) < N.to_nat len)%nat →
       e1 ≠ EINTR →
       recvall io c buf len
       = Some ((-1)%Z,
               recv_bytes pre ++ drop (length (recv_bytes pre)) buf,
               mkConn post (outgoing c) (wire c) e1))
  ∧ (∀ r c',
       sendall c buf len = Some (r, c') →
       (r = Z.of_N len ∧ wire c' = wire c ++ take (N.to_nat len) buf)
       ∨ (r = (-1)%Z
          ∧ ∃ k, (k < N.to_nat len)%nat ∧ wire c' = wire c ++ take k buf))
  ∧ (∀ pre post,
       outgoing c = pre ++ post →
       forallb send_retried pre = true →
       (N.to_nat len <= send_capacity pre)%nat →
       ∃ c', sendall c buf len = Some (Z.of_N len, c'))
  ∧ (∀ pre e1 post,
       outgoing c = pre ++ SendError e1 :: post →
       forallb send_retried pre = true →
       (send_capacity pre < N.to_nat len)%nat →
       e1 ≠ EINTR →
       ∃ wr', sendall c buf len = Some ((-1)%Z, mkConn (incoming c) post wr' e1)).
Proof.
  intros Hio Hmax Hbuf. destruct c as [inc out wr e]. cbn [incoming outgoing wire].
  split; [|split; [|split; [|split; [|split; [|split]]]]].
  - intros r buf' c' Hrun. unfold recvall in Hrun.
    eapply recvall_loop_outcomes in Hrun; [exact Hrun|assumption|lia].
  - intros pre post -> Hret Hlen. unfold recvall. cbn [incoming].
    destruct (recvall_loop_enough io len post out wr Hmax pre
                (S (length (pre ++ post))) e [] buf) as [c' Hrun];
      [assumption|intros _; exact Hio|rewrite length_app; lia|simpl; lia
      |simpl; lia|].
    exists c'. cbn [app length] in Hrun. change (N.of_nat 0) with 0%N in Hrun.
    rewrite Hrun, Nat.sub_0_r. reflexivity.
  - intros pre post -> Hret Hlen. unfold recvall. cbn [incoming].
    destruct (recvall_loop_consume io len (RecvClosed :: post) out wr Hmax pre
                (S (length (pre ++ RecvClosed :: post))) e [] buf) as [e' Hrun];
      [assumption|intros _; exact Hio|rewrite length_app; lia|simpl; lia
      |simpl; lia|].
    exists e'. cbn [app length] in Hrun. change (N.of_nat 0) with 0%N in Hrun.
    rewrite Hrun.
    rewrite length_app. cbn [length].
    replace (S (length pre + S (length post)) - length pre)%nat
      with (S (S (length post))) by lia.
    rewrite recvall_loop_closed by lia. reflexivity.
  - intros pre e1 post -> Hret Hlen He1. unfold recvall. cbn [incoming].
    destruct (recvall_loop_consume io len (RecvError e1 :: post) out wr Hmax pre
                (S (length (pre ++ RecvError e1 :: post))) e [] buf) as [e' Hrun];
      [assumption|intros _; exact Hio|rewrite length_app; lia|simpl; lia
      |simpl; lia|].
    cbn [app length] in Hrun. change (N.of_nat 0) with 0%N in Hrun.
    rewrite Hrun.
    rewrite length_app. cbn [length].
    replace (S (length pre + S (length post)) - length pre)%nat
      with (S (S (length post))) by lia.
    rewrite recvall_loop_error by lia. rewrite Hio. cbn [errno].
    apply Z.eqb_neq in He1. rewrite He1. reflexivity.
  - intros r c' Hrun. unfold sendall in Hrun.
    apply (sendall_loop_sound len buf Hmax Hbuf) in Hrun; [|lia].
    destruct Hrun as (k & Hwire & [[-> Hk]|[-> Hk]]);
      cbn [wire] in Hwire; simpl in Hwire; rewrite Hwire.
    + left. split; [reflexivity|]. do 2 f_equal. lia.
    + right. split; [reflexivity|]. exists (N.to_nat k). split; [lia|reflexivity].
  - intros pre post -> Hret Hcap. unfold sendall. cbn [outgoing].
    apply sendall_loop_enough; try assumption;
      rewrite ?length_app; simpl; lia.
  - intros pre e1 post -> Hret Hcap He1. unfold sendall. cbn [outgoing].
    apply sendall_loop_fails; try assumption;
      rewrite ?length_app; simpl; lia.
Qed.

Lemma wire_helpers_all_or_nothing_witness :
  (∃ c', recvall quiet hello_conn (replicate 5 x00) 5 = Some (5%Z, hello, c'))
  ∧ (∃ e', recvall quiet hello_conn (replicate 8 x00) 6
           = Some (0%Z, hello ++ [x00; x00; x00],
                   mkConn [] (outgoing hello_conn) [] e'))
  ∧ (∃ c', sendall hello_conn hello 5 = Some (5%Z, c'))
  ∧ (∃ wr', sendall hello_conn (hello ++ hello ++ hello) 15
            = Some ((-1)%Z, mkConn (incoming hello_conn) [] wr' 32)).
Proof.
  split; [|split; [|split]].
  - destruct (wire_helpers_all_or_nothing quiet hello_conn (replicate 5 x00) 5)
      as (_ & Hok & _); [intros c; reflexivity|vm_compute; discriminate|simpl; lia|].
    apply (Hok [RecvData x68 [x65]; RecvError EINTR; RecvData x6c [x6c; x6f]]
               [RecvClosed]); [reflexivity|reflexivity|simpl; lia].
  - destruct (wire_helpers_all_or_nothing quiet hello_conn (replicate 8 x00) 6)
      as (_ & _ & Hclosed & _); [intros c; reflexivity|vm_compute; discriminate|simpl; lia|].
    apply (Hclosed [RecvData x68 [x65]; RecvError EINTR; RecvData x6c [x6c; x6f]]
                   []); [reflexivity|reflexivity|simpl; lia].
  - destruct (wire_helpers_all_or_nothing quiet hello_conn hello 5)
      as (_ & _ & _ & _ & _ & Hsent & _); [intros c; reflexivity|vm_compute; discriminate|simpl; lia|].
    apply (Hsent [SendSome 1; SendError EINTR; SendSome 9] [SendError 32]);
      [reflexivity|reflexivity|simpl; lia].
  - destruct (wire_helpers_all_or_nothing quiet hello_conn (hello ++ hello ++ hello) 15)
      as (_ & _ & _ & _ & _ & _ & Hfail); [intros c; reflexivity|vm_compute; discriminate|simpl; lia|].
    apply (Hfail [SendSome 1; SendError EINTR; SendSome 9] 32%Z []);
      [reflexivity|reflexivity|simpl; lia|discriminate].
Defined.

(** ** The wire helpers: the claim *)

(** C6 (the code departs from the claim). [recvall] calls [perror] between
    the failed [recv] and the test of [errno]. When [perror] leaves another
    value in [errno] (here 22, as on a standard error stream that cannot
    be written), an interrupted [recv] is not retried: [recvall] returns
    -1 with two of the five bytes in the buffer and the rest of the stream
    unread. On the same script with a [perror] that leaves [errno] alone it
    returns 5 with all five bytes, and [sendall], which tests [errno]
    right after [send], gets over its interrupted call. *)
Theorem recvall_surfaces_interrupted_call :
  incoming hello_conn
  = [RecvData x68 [x65]; RecvError EINTR; RecvData x6c [x6c; x6f]; RecvClosed]
  ∧ recvall broken_stderr hello_conn (replicate 5 x00) 5
    = Some ((-1)%Z, [x68; x65; x00; x00; x00],
            mkConn [RecvData x6c [x6c; x6f]; RecvClosed]
              (outgoing hello_conn) [] 22)
  ∧ recvall quiet hello_conn (replicate 5 x00) 5
    = Some (5%Z, hello, mkConn [RecvClosed] (outgoing hello_conn) [] EINTR)
  ∧ outgoing hello_conn
    = [SendSome 1; SendError EINTR; SendSome 9; SendError 32]
  ∧ sendall hello_conn hello 5
    = Some (5%Z, mkConn (incoming hello_conn) [SendError 32] hello EINTR).
Proof. repeat split. Qed.


(** * Further properties of the code *)

(** ** find_player_by_ip: the linear search *)

Lemma find_loop_first_match players target_ip :
  ∀ iters i,
    (N.to_nat i + iters <= length players)%nat →
    (∃ j p,
       find_loop players target_ip i iters = Some (Some j)
       ∧ (i <= j)%N ∧ (N.to_nat j < N.to_nat i + iters)%nat
       ∧ players !! N.to_nat j = Some p ∧ ip p = target_ip
       ∧ ∀ k q, (N.to_nat i <= k < N.to_nat j)%nat →
                players !! k = Some q → ip q ≠ target_ip)
    ∨ (find_loop players target_ip i iters = Some None
       ∧ ∀ k q, (N.to_nat i <= k < N.to_nat i + iters)%nat →
                players !! k = Some q → ip q ≠ target_ip).
Proof.
  induction iters as [|n IH]; intros i Hlen.
  - right. split; [reflexivity|]. intros k q Hk. lia.
  - destruct (lookup_lt_is_Some_2 players (N.to_nat i)) as [p Hp]; [lia|].
    cbn [find_loop]. rewrite Hp. cbn [mbind option_bind].
    destruct (N.eqb_spec (ip p) target_ip) as [Heq|Hne].
    + left. exists i, p.
      split; [reflexivity|]. split; [lia|]. split; [lia|].
      split; [exact Hp|]. split; [exact Heq|]. intros k q Hk. lia.
    + destruct (IH (i + 1)%N) as [(j & pj & Hrun & Hij & Hj & Hrow & Hip & Hbefore)
                                  |(Hrun & Hnone)]; [lia| |].
      * left. exists j, pj.
        split; [exact Hrun|]. split; [lia|]. split; [lia|].
        split; [exact Hrow|]. split; [exact Hip|]. intros k q Hk Hq.
        destruct (Nat.eq_dec k (N.to_nat i)) as [->|Hki].
        -- rewrite Hp in Hq. inversion Hq; subst. exact Hne.
        -- apply (Hbefore k q); [lia|assumption].
      * right. split; [exact Hrun|]. intros k q Hk Hq.
        destruct (Nat.eq_dec k (N.to_nat i)) as [->|Hki].
        -- rewrite Hp in Hq. inversion Hq; subst. exact Hne.
        -- apply (Hnone k q); [lia|assumption].
Qed.

(** X1. When [g_player_count] does not exceed the size of the array,
    [find_player_by_ip] returns; what it returns is the lowest row below
    [g_player_count] that carries the identity, or [NULL] when no row below
    [g_player_count] carries it. Rows at or above the counter are not
    looked at. *)
Theorem find_player_by_ip_first_match target_ip s :
  (N.to_nat (g_player_count s) <= length (g_players s))%nat →
  (∃ j p,
     find_player_by_ip target_ip s = Some (Some j)
     ∧ (j < g_player_count s)%N
     ∧ g_players s !! N.to_nat j = Some p ∧ ip p = target_ip
     ∧ ∀ k q, (k < N.to_nat j)%nat →
              g_players s !! k = Some q → ip q ≠ target_ip)
  ∨ (find_player_by_ip target_ip s = Some None
     ∧ ∀ k q, (k < N.to_nat (g_player_count s))%nat →
              g_players s !! k = Some q → ip q ≠ target_ip).
Proof.
  intros Hlen. unfold find_player_by_ip.
  destruct (find_loop_first_match (g_players s) target_ip
              (N.to_nat (g_player_count s)) 0%N)
    as [(j & p & Hrun & _ & Hj & Hrow & Hip & Hbefore)|(Hrun & Hnone)]; [simpl; lia| |].
  - left. exists j, p.
    split; [exact Hrun|]. split; [lia|].
    split; [exact Hrow|]. split; [exact Hip|].
    intros k q Hk. apply Hbefore. lia.
  - right. split; [exact Hrun|]. intros k q Hk. apply Hnone. lia.
Qed.

Lemma find_player_by_ip_first_match_witness :
  find_player_by_ip 5 full_table = Some (Some 4%N)
  ∧ find_player_by_ip 99 full_table = Some None.
Proof.
  destruct (find_player_by_ip_first_match 5 full_table) as [_|_];
    [vm_compute; lia|split; reflexivity..].
Defined.

(** ** irand: the range of the result *)

Lemma int_ok_in_range z :
  (INT_MIN <= z <= INT_MAX)%Z → int_ok z = Some z.
Proof.
  intros Hz. unfold int_ok.
  destruct (Z.leb_spec INT_MIN z); [|lia].
  destruct (Z.leb_spec z INT_MAX); [reflexivity|lia].
Qed.

Lemma int_ok_value z v : int_ok z = Some v → v = z.
Proof. unfold int_ok. destruct (_ && _); intros H; inversion H. reflexivity. Qed.

(** X2. For bounds [a <= b] whose distance fits [int] and a value of
    [rand()] between 0 and [INT_MAX], [irand] is defined and its result
    lies between [a] and [b], both included. *)
Theorem irand_in_range a b rnd :
  (INT_MIN <= a)%Z → (a <= b)%Z → (b <= INT_MAX)%Z →
  (b - a < INT_MAX)%Z →
  (0 <= rnd <= INT_MAX)%Z →
  ∃ v, irand a b rnd = Some v ∧ (a <= v <= b)%Z.
Proof.
  intros Ha Hab Hb Hd Hrnd.
  assert (Hmin : INT_MIN = (-2147483648)%Z) by reflexivity.
  assert (Hmax : INT_MAX = 2147483647%Z) by reflexivity.
  pose proof (Z.rem_bound_pos rnd (b - a + 1)) as Hrem.
  exists (a + Z.rem rnd (b - a + 1))%Z. split; [|lia].
  unfold irand. rewrite (int_ok_in_range (b - a)%Z) by lia.
  cbn [mbind option_bind].
  rewrite (int_ok_in_range (b - a + 1)%Z) by lia. cbn [mbind option_bind].
  destruct (Z.eqb_spec (b - a + 1) 0) as [|_]; [lia|].
  destruct (Z.eqb_spec rnd INT_MIN) as [|_]; [lia|].
  cbn [andb mbind option_bind]. apply int_ok_in_range. lia.
Qed.

Lemma irand_in_range_witness :
  ∃ v, irand (-3) 12 2147483647 = Some v ∧ (-3 <= v <= 12)%Z.
Proof.
  apply (irand_in_range (-3) 12 2147483647); vm_compute; try split; discriminate.
Defined.

(** X3. With the bounds the wrong way round, [irand] does not give a value
    of the interval: for [b = a - 1] the modulus is 0 and the call is
    undefined, and for [b < a - 1] a result, if any, is at least [a]. *)
Theorem irand_reversed_bounds a b rnd :
  (b < a)%Z → (0 <= rnd)%Z →
  (b = (a - 1)%Z → irand a b rnd = None)
  ∧ ∀ v, irand a b rnd = Some v → (b < a <= v)%Z.
Proof.
  intros Hba Hrnd. split.
  - intros ->. unfold irand.
    destruct (int_ok (a - 1 - a)) as [d|] eqn:Hd; [|reflexivity].
    cbn [mbind option_bind].
    assert (d = (-1)%Z) as ->.
    { unfold int_ok in Hd. destruct (_ && _); inversion Hd. lia. }
    reflexivity.
  - intros v Hrun. unfold irand in Hrun.
    destruct (int_ok (b - a)) as [d|] eqn:Hd; [|discriminate].
    assert (d = (b - a)%Z) as ->.
    { unfold int_ok in Hd. destruct (_ && _); inversion Hd. reflexivity. }
    cbn [mbind option_bind] in Hrun.
    destruct (int_ok (b - a + 1)) as [m|] eqn:Hm; [|discriminate].
    assert (m = (b - a + 1)%Z) as ->.
    { unfold int_ok in Hm. destruct (_ && _); inversion Hm. reflexivity. }
    cbn [mbind option_bind] in Hrun.
    destruct (Z.eqb_spec (b - a + 1) 0) as [|Hne]; [discriminate|].
    destruct ((rnd =? INT_MIN)%Z && (b - a + 1 =? -1)%Z); [discriminate|].
    cbn [mbind option_bind] in Hrun.
    unfold int_ok in Hrun. destruct (_ && _); inversion Hrun.
    pose proof (Z.rem_bound_pos rnd (- (b - a + 1))) as Hrem.
    rewrite Z.rem_opp_r in Hrem by assumption. lia.
Qed.

Lemma irand_reversed_bounds_witness :
  irand 5 4 7 = None ∧ (2 < 5 <= 6)%Z.
Proof.
  split.
  - apply (irand_reversed_bounds 5 4 7); [lia|lia|reflexivity].
  - apply (irand_reversed_bounds 5 2 7); [lia|lia|reflexivity].
Defined.

(** ** Avatar conversion: what the result depends on *)

(** The loops use the source through [pixel_rgba] only. *)
Lemma row_loop_ext px1 px2 av_w ch1 ch2 y :
  ∀ iters x image_buf,
    (∀ x', (x <= x' < x + N.of_nat iters)%N →
           pixel_rgba px1 ch1 (y * av_w + x') = pixel_rgba px2 ch2 (y * av_w + x')) →
    row_loop px1 av_w ch1 y x iters image_buf
    = row_loop px2 av_w ch2 y x iters image_buf.
Proof.
  induction iters as [|k IH]; intros x image_buf Hpix; [reflexivity|].
  cbn [row_loop]. unfold convert_pixel. rewrite (Hpix x) by lia.
  destruct (pixel_rgba px2 ch2 (y * av_w + x)) as [[[[r g] b] a]|]; [|reflexivity].
  cbn [mbind option_bind].
  destruct (store image_buf _ r) as [b1|]; [|reflexivity]. cbn [mbind option_bind].
  destruct (store b1 _ g) as [b2|]; [|reflexivity]. cbn [mbind option_bind].
  destruct (store b2 _ b) as [b3|]; [|reflexivity]. cbn [mbind option_bind].
  destruct (store b3 _ a) as [b4|]; [|reflexivity]. cbn [mbind option_bind].
  apply IH. intros x' Hx'. apply Hpix. lia.
Qed.

Lemma image_loop_ext px1 px2 av_w ch1 ch2 :
  ∀ iters y image_buf,
    (∀ y' x', (y <= y' < y + N.of_nat iters)%N → (x' < av_w)%N →
              pixel_rgba px1 ch1 (y' * av_w + x')
              = pixel_rgba px2 ch2 (y' * av_w + x')) →
    image_loop px1 av_w ch1 y iters image_buf
    = image_loop px2 av_w ch2 y iters image_buf.
Proof.
  induction iters as [|k IH]; intros y image_buf Hpix; [reflexivity|].
  cbn [image_loop].
  rewrite (row_loop_ext px1 px2 av_w ch1 ch2 y)
    by (intros x' Hx'; apply Hpix; lia).
  destruct (row_loop px2 av_w ch2 y 0 (N.to_nat av_w) image_buf) as [b1|];
    [|reflexivity].
  cbn [mbind option_bind]. apply IH. intros y' x' Hy' Hx'. apply Hpix; lia.
Qed.

(** A run of a loop that comes to its end has computed each of its pixels. *)
Lemma row_loop_reads av_pixels av_w av_ch y :
  ∀ iters x image_buf out,
    row_loop av_pixels av_w av_ch y x iters image_buf = Some out →
    ∀ x', (x <= x' < x + N.of_nat iters)%N →
          is_Some (pixel_rgba av_pixels av_ch (y * av_w + x')).
Proof.
  induction iters as [|k IH]; intros x image_buf out Hrun x' Hx'; [lia|].
  cbn [row_loop] in Hrun.
  destruct (convert_pixel av_pixels av_w av_ch y x image_buf) as [b1|] eqn:Hpix;
    [|discriminate].
  cbn [mbind option_bind] in Hrun.
  destruct (N.eq_dec x' x) as [->|Hne].
  - unfold convert_pixel in Hpix.
    destruct (pixel_rgba av_pixels av_ch (y * av_w + x)); [eauto|discriminate].
  - eapply IH; [exact Hrun|lia].
Qed.

Lemma image_loop_reads av_pixels av_w av_ch :
  ∀ iters y image_buf out,
    image_loop av_pixels av_w av_ch y iters image_buf = Some out →
    ∀ y' x', (y <= y' < y + N.of_nat iters)%N → (x' < av_w)%N →
             is_Some (pixel_rgba av_pixels av_ch (y' * av_w + x')).
Proof.
  induction iters as [|k IH]; intros y image_buf out Hrun y' x' Hy' Hx'; [lia|].
  cbn [image_loop] in Hrun.
  destruct (row_loop av_pixels av_w av_ch y 0 (N.to_nat av_w) image_buf)
    as [b1|] eqn:Hrow; [|discriminate].
  cbn [mbind option_bind] in Hrun.
  destruct (N.eq_dec y' y) as [->|Hne].
  - eapply row_loop_reads; [exact Hrow|lia].
  - eapply IH; [exact Hrun|lia|assumption].
Qed.

(** A flat index below [av_h * av_w] is a row below [av_h] and a column
    below [av_w]. *)
Lemma flat_index_split av_w av_h i :
  (i < av_h * av_w)%N →
  ∃ y x, (y < av_h)%N ∧ (x < av_w)%N ∧ i = (y * av_w + x)%N.
Proof.
  intros Hi. assert (Hw : av_w ≠ 0%N) by (intros ->; lia).
  exists (i / av_w)%N, (i mod av_w)%N.
  split; [apply N.Div0.div_lt_upper_bound; lia|].
  split; [apply N.mod_lt, Hw|].
  rewrite (N.div_mod i av_w Hw) at 1. lia.
Qed.

(** What a conversion that comes to its end has produced, without any
    assumption on the source. *)
Lemma normalized_result av_pixels av_w av_h av_ch out :
  normalized av_pixels av_w av_h av_ch = Some out →
  length out
  = N.to_nat (truncate_dim av_w MAX_AVATAR_W * truncate_dim av_h MAX_AVATAR_H * 4)
  ∧ ∀ i, (i < truncate_dim av_h MAX_AVATAR_H * truncate_dim av_w MAX_AVATAR_W)%N →
         is_Some (pixel_rgba av_pixels av_ch i)
         ∧ pixel_at out i = pixel_rgba av_pixels av_ch i.
Proof.
  intros Hrun. unfold normalized in Hrun.
  rewrite image_buf_len_truncated in Hrun.
  set (a := truncate_dim av_w MAX_AVATAR_W) in *.
  set (b := truncate_dim av_h MAX_AVATAR_H) in *.
  assert (Hsrc : ∀ i, (i < b * a)%N → is_Some (pixel_rgba av_pixels av_ch i)).
  { intros i Hi. destruct (flat_index_split a b i Hi) as (y & x & Hy & Hx & ->).
    eapply image_loop_reads; [exact Hrun|lia|assumption]. }
  destruct (image_loop_ok av_pixels a b av_ch (N.to_nat b) 0%N
              (replicate (N.to_nat (a * b * 4)) None))
    as (out' & Hrun' & Hlen & Hin & _); [lia|assumption|rewrite length_replicate; lia|].
  rewrite Hrun in Hrun'. inversion Hrun'; subst out'.
  split; [rewrite Hlen, length_replicate; reflexivity|].
  intros i Hi. split; [apply Hsrc, Hi|apply Hin; lia].
Qed.

(** Every cell of a converted image has been written. *)
Lemma normalized_initialised av_pixels av_w av_h av_ch out :
  normalized av_pixels av_w av_h av_ch = Some out → Forall is_Some out.
Proof.
  intros Hrun. destruct (normalized_result _ _ _ _ _ Hrun) as (Hlen & Hpix).
  apply Forall_lookup. intros j c Hj.
  pose proof (lookup_lt_Some _ _ _ Hj) as Hlt. rewrite Hlen in Hlt.
  set (i := N.of_nat (j / 4)).
  pose proof (Nat.div_mod_eq j 4) as Hdm.
  pose proof (Nat.mod_upper_bound j 4) as Hm.
  destruct (Hpix i) as ([[[[r g] b] a] Hrgba] & Hat); [unfold i; lia|].
  rewrite Hrgba in Hat. apply pixel_at_cells in Hat.
  destruct Hat as (H0 & H1 & H2 & H3).
  assert (Hcase : j = N.to_nat (i * 4 + 0) ∨ j = N.to_nat (i * 4 + 1)
                  ∨ j = N.to_nat (i * 4 + 2) ∨ j = N.to_nat (i * 4 + 3))
    by (unfold i; lia).
  destruct Hcase as [E | [E | [E | E]]]; rewrite E in Hj;
    rewrite ?H0, ?H1, ?H2, ?H3 in Hj; inversion Hj; eauto.
Qed.

(** A conversion that comes to its end had a source of [src_needed] bytes. *)
Lemma normalized_needs_source av_pixels av_w av_h av_ch :
  is_Some (normalized av_pixels av_w av_h av_ch) →
  (N.to_nat (src_needed av_w av_h av_ch) <= length av_pixels)%nat.
Proof.
  intros [out Hrun]. destruct (normalized_result _ _ _ _ _ Hrun) as (_ & Hpix).
  unfold src_needed.
  set (a := truncate_dim av_w MAX_AVATAR_W) in *.
  set (b := truncate_dim av_h MAX_AVATAR_H) in *.
  destruct (N.eq_dec (a * b)%N 0%N) as [->|Hpos]; [simpl; lia|].
  destruct (Hpix (a * b - 1)%N) as (Hlast & _); [lia|].
  apply pixel_rgba_reads in Hlast. unfold source_reads in Hlast.
  unfold RGBA_CHANNEL_COUNT, RGB_CHANNEL_COUNT in *.
  destruct (av_ch =? 4)%N; [|destruct (av_ch =? 3)%N];
    rewrite ?Forall_cons in Hlast; lia.
Qed.

(** X4. The conversion is defined exactly when the source holds the bytes
    that the loops address: the truncated width times the truncated height
    times 4 for channel count 4, times 3 for channel count 3, and times 1
    for every other channel count. With fewer bytes a read leaves the
    source. *)
Theorem normalized_defined_iff av_pixels av_w av_h av_ch :
  is_Some (normalized av_pixels av_w av_h av_ch)
  ↔ (N.to_nat (src_needed av_w av_h av_ch) <= length av_pixels)%nat.
Proof.
  split.
  - apply normalized_needs_source.
  - intros Hsrc. destruct (normalized_ok _ _ _ _ Hsrc) as (out & -> & _). eauto.
Qed.

(** X5. The conversion looks at the first [src_needed] bytes of the source
    only: two sources that agree on them give the same result, whatever
    follows them and however long the sources are. *)
Theorem normalized_reads_prefix_only px1 px2 av_w av_h av_ch :
  take (N.to_nat (src_needed av_w av_h av_ch)) px1
  = take (N.to_nat (src_needed av_w av_h av_ch)) px2 →
  normalized px1 av_w av_h av_ch = normalized px2 av_w av_h av_ch.
Proof.
  intros Htake. unfold normalized. apply image_loop_ext.
  intros y x Hy Hx. unfold src_needed in Htake.
  set (a := truncate_dim av_w MAX_AVATAR_W) in *.
  set (b := truncate_dim av_h MAX_AVATAR_H) in *.
  assert (Hrow : ((y + 1) * a <= b * a)%N) by (apply N.mul_le_mono_r; lia).
  assert (Hload : ∀ k j, (N.to_nat j < N.to_nat (a * b * k))%nat →
            take (N.to_nat (a * b * k)) px1 = take (N.to_nat (a * b * k)) px2 →
            load px1 j = load px2 j).
  { intros k j Hj Heq. unfold load.
    rewrite <- (lookup_take_lt px1 (N.to_nat (a * b * k))) by assumption.
    rewrite <- (lookup_take_lt px2 (N.to_nat (a * b * k))) by assumption.
    rewrite Heq. reflexivity. }
  unfold pixel_rgba, RGBA_CHANNEL_COUNT, RGB_CHANNEL_COUNT in *.
  destruct (av_ch =? 4)%N; [|destruct (av_ch =? 3)%N].
  - rewrite (Hload 4%N ((y * a + x) * 4 + 0)%N), (Hload 4%N ((y * a + x) * 4 + 1)%N),
      (Hload 4%N ((y * a + x) * 4 + 2)%N), (Hload 4%N ((y * a + x) * 4 + 3)%N)
      by (exact Htake || lia).
    reflexivity.
  - rewrite (Hload 3%N ((y * a + x) * 3 + 0)%N), (Hload 3%N ((y * a + x) * 3 + 1)%N),
      (Hload 3%N ((y * a + x) * 3 + 2)%N) by (exact Htake || lia).
    reflexivity.
  - rewrite (Hload 1%N (y * a + x)%N) by (exact Htake || lia).
    reflexivity.
Qed.

Lemma normalized_reads_prefix_only_witness :
  normalized [x0a; x14; x1e; x28; x32] 1 1 3
  = normalized [x0a; x14; x1e] 1 1 3.
Proof.
  apply (normalized_reads_prefix_only [x0a; x14; x1e; x28; x32] [x0a; x14; x1e]).
  reflexivity.
Defined.

(** X6. Every channel count other than 3 and 4 (0, 1, 2, 5, ...) is
    converted as one byte per pixel: the result is the one for channel
    count 1, and for a count above 1 the bytes of the other channels are
    taken for further pixels. *)
Theorem other_channel_counts_are_grayscale av_pixels av_w av_h av_ch :
  av_ch ≠ RGBA_CHANNEL_COUNT → av_ch ≠ RGB_CHANNEL_COUNT →
  normalized av_pixels av_w av_h av_ch = normalized av_pixels av_w av_h 1.
Proof.
  intros H4 H3. unfold normalized. apply image_loop_ext.
  intros y x _ _. unfold pixel_rgba.
  apply N.eqb_neq in H4. apply N.eqb_neq in H3. rewrite H4, H3. reflexivity.
Qed.

Lemma other_channel_counts_are_grayscale_witness :
  normalized [x0a; xff; x14; xff] 2 1 2
  = Some (map Some [x0a; x0a; x0a; xff; xff; xff; xff; xff]).
Proof.
  rewrite (other_channel_counts_are_grayscale [x0a; xff; x14; xff] 2 1 2);
    [reflexivity|discriminate|discriminate].
Defined.

(** ** The player table: what the operations keep *)

(** X7. A call of [ensure_player] that returns leaves the two counters, the
    heap and the size of the array as they are, and changes no row other
    than the one at [g_player_count + 1]; in particular it frees nothing. *)
Theorem ensure_player_frame target_ip rnd_x rnd_y s r s' :
  ensure_player target_ip rnd_x rnd_y s = Some (r, s') →
  g_player_count s' = g_player_count s
  ∧ g_next_player_id s' = g_next_player_id s
  ∧ heap s' = heap s
  ∧ length (g_players s') = length (g_players s)
  ∧ ∀ j, j ≠ N.to_nat (new_player_index s) →
         g_players s' !! j = g_players s !! j.
Proof.
  intros Hrun.
  destruct (ensure_player_cases _ _ _ _ _ _ Hrun)
    as [(i & _ & _ & ->)|[(_ & _ & _ & ->)|(_ & _ & _ & _ & ->)]];
    repeat split; auto.
  - simpl. apply length_insert.
  - intros j Hj. simpl. apply list_lookup_insert_ne. congruence.
Qed.

Lemma ensure_player_frame_witness :
  heap registered_twice = heap avatar_uploaded
  ∧ g_players registered_twice !! 0%nat = g_players avatar_uploaded !! 0%nat.
Proof.
  destruct (ensure_player_frame localhost 7 9 avatar_uploaded (Some 1%N)
              registered_twice) as (_ & _ & Hheap & _ & Hrows).
  - vm_compute. reflexivity.
  - split; [exact Hheap|]. apply Hrows. vm_compute. discriminate.
Defined.

(** X8. In no execution does [ensure_player] return [NULL] or find an
    existing player: from every reachable state, for every identity, it
    takes the creation path and returns row 1, whose previous content it
    overwrites. The capacity test of line 125 never fires. *)
Theorem ensure_player_always_creates s target_ip rnd_x rnd_y :
  reachable s →
  find_player_by_ip target_ip s = Some None
  ∧ ∃ s',
      ensure_player target_ip rnd_x rnd_y s = Some (Some 1%N, s')
      ∧ g_players s' !! 1%nat = Some (created_row target_ip s)
      ∧ ip (created_row target_ip s) = target_ip
      ∧ player_id (created_row target_ip s) = 2%N
      ∧ avatar (created_row target_ip s) = None.
Proof.
  intros Hs. split; [apply reachable_find, Hs|].
  destruct (reachable_counters s Hs) as (_ & Hn & Hl).
  eexists. split; [apply reachable_ensure, Hs|].
  split.
  - simpl. apply list_lookup_insert_eq. rewrite Hl. vm_compute. lia.
  - split; [reflexivity|]. split; [|reflexivity].
    simpl. unfold new_player_id. rewrite Hn. reflexivity.
Qed.

Lemma ensure_player_always_creates_witness :
  ∃ s', ensure_player 3232235777 0 0 registered_other = Some (Some 1%N, s').
Proof.
  destruct (ensure_player_always_creates registered_other 3232235777 0 0)
    as (_ & s' & Hrun & _).
  - apply (reach_ensure registered_once other_host 3 4 (Some 1%N)).
    + apply (reach_ensure init_state localhost 7 9 (Some 1%N));
        [apply reach_init|reflexivity].
    + reflexivity.
  - exists s'. exact Hrun.
Defined.

(** ** The player table and the heap *)

Lemma set_player_avatar_cases alloc_ok target_player av_pixels av_w av_h av_ch s r s' :
  set_player_avatar alloc_ok target_player av_pixels av_w av_h av_ch s
    = Some (r, s') →
  (alloc_ok = false ∧ r = false ∧ s' = s)
  ∨ (alloc_ok = true ∧ r = true
     ∧ ∃ cells p hp,
         normalized av_pixels av_w av_h av_ch = Some cells
         ∧ g_players s !! N.to_nat target_player = Some p
         ∧ free (avatar p) (<[fresh (dom (heap s)) := cells]> (heap s)) = Some hp
         ∧ s' = mkState
                  (<[N.to_nat target_player :=
                       with_tex_dirty true (with_ch RGBA_CHANNEL_COUNT
                         (with_h (truncate_dim av_h MAX_AVATAR_H)
                           (with_w (truncate_dim av_w MAX_AVATAR_W)
                             (with_avatar (Some (fresh (dom (heap s)))) p))))]>
                     (g_players s))
                  (g_player_count s) (g_next_player_id s) hp).
Proof.
  intros Hrun. destruct alloc_ok.
  - right. rewrite set_player_avatar_alloc in Hrun.
    destruct (normalized av_pixels av_w av_h av_ch) as [cells|]; [|discriminate].
    cbn [mbind option_bind] in Hrun.
    destruct (g_players s !! N.to_nat target_player) as [p|]; [|discriminate].
    cbn [mbind option_bind] in Hrun.
    destruct (free (avatar p) _) as [hp|] eqn:Hfree; [|discriminate].
    cbn [mbind option_bind] in Hrun. inversion Hrun; subst.
    split; [reflexivity|]. split; [reflexivity|]. eauto 10.
  - left. inversion Hrun. auto.
Qed.

Lemma avatar_ok_live hp p : avatar_ok hp p → avatar_live p hp.
Proof.
  unfold avatar_ok, avatar_live. destruct (avatar p); [|auto].
  intros (cells & -> & _). eauto.
Qed.

Lemma table_ok_init : table_ok init_state.
Proof.
  split.
  - intros i p Hp. apply lookup_replicate in Hp as [-> _]. exact I.
  - intros i j p q l Hp _ Hl. apply lookup_replicate in Hp as [-> _]. discriminate.
Qed.

Lemma table_ok_ensure target_ip rnd_x rnd_y s r s' :
  table_ok s →
  ensure_player target_ip rnd_x rnd_y s = Some (r, s') →
  table_ok s'.
Proof.
  intros [Hrows Hown] Hrun.
  destruct (ensure_player_cases _ _ _ _ _ _ Hrun)
    as [(i & _ & _ & ->)|[(_ & _ & _ & ->)|(_ & _ & _ & _ & ->)]];
    [split; assumption..|].
  split.
  - intros i p Hp. cbn [g_players heap with_players] in *.
    apply list_lookup_insert_Some in Hp as [(_ & <- & _)|(_ & Hp)].
    + exact I.
    + eapply Hrows, Hp.
  - intros i j p q l Hp Hq Hpl Hql. cbn [g_players with_players] in *.
    apply list_lookup_insert_Some in Hp as [(_ & <- & _)|(_ & Hp)]; [discriminate|].
    apply list_lookup_insert_Some in Hq as [(_ & <- & _)|(_ & Hq)]; [discriminate|].
    eapply Hown; eassumption.
Qed.

Lemma table_ok_avatar alloc_ok target_player av_pixels av_w av_h av_ch s r s' :
  table_ok s →
  set_player_avatar alloc_ok target_player av_pixels av_w av_h av_ch s
    = Some (r, s') →
  table_ok s'.
Proof.
  intros [Hrows Hown] Hrun.
  destruct (set_player_avatar_cases _ _ _ _ _ _ _ _ _ Hrun)
    as [(_ & _ & ->)|(_ & _ & cells & p & hp & Hnorm & Hp & Hfree & ->)];
    [split; assumption|].
  pose proof (fresh_block_not_live (heap s)) as Hfresh.
  set (l := fresh (dom (heap s))) in *.
  set (tp := N.to_nat target_player) in *.
  assert (Hother : ∀ j q lq, j ≠ tp → g_players s !! j = Some q →
                     avatar q = Some lq → hp !! lq = heap s !! lq).
  { intros j q lq Hj Hq Hlq.
    pose proof (avatar_ok_live _ _ (Hrows j q Hq)) as Hlive.
    unfold avatar_live in Hlive. rewrite Hlq in Hlive.
    assert (lq ≠ l) by (intros ->; rewrite Hfresh in Hlive; destruct Hlive; discriminate).
    unfold free in Hfree. destruct (avatar p) as [old|] eqn:Hold.
    - destruct (_ !! old); inversion Hfree; subst hp.
      assert (old ≠ lq).
      { intros ->. apply Hj. eapply Hown; eassumption. }
      rewrite lookup_delete_ne, lookup_insert_ne by congruence. reflexivity.
    - inversion Hfree; subst hp. rewrite lookup_insert_ne by congruence.
      reflexivity. }
  assert (Hnew : hp !! l = Some cells).
  { pose proof (avatar_ok_live _ _ (Hrows tp p Hp)) as Hlive.
    unfold avatar_live in Hlive.
    unfold free in Hfree. destruct (avatar p) as [old|] eqn:Hold.
    - assert (old ≠ l) by (intros ->; rewrite Hfresh in Hlive; destruct Hlive; discriminate).
      destruct (_ !! old); inversion Hfree; subst hp.
      rewrite lookup_delete_ne, lookup_insert_eq by congruence. reflexivity.
    - inversion Hfree; subst hp. apply lookup_insert_eq. }
  destruct (normalized_result _ _ _ _ _ Hnorm) as (Hlen & _).
  pose proof (normalized_initialised _ _ _ _ _ Hnorm) as Hinit.
  split.
  - intros i q Hq. cbn [g_players heap] in *.
    apply list_lookup_insert_Some in Hq as [(_ & <- & _)|(Hi & Hq)].
    + unfold avatar_ok. cbn. exists cells.
      split; [exact Hnew|]. split; [exact Hlen|]. split; [exact Hinit|].
      split; [apply truncate_dim_le|]. split; [apply truncate_dim_le|reflexivity].
    + pose proof (Hrows i q Hq) as Hok. unfold avatar_ok in *.
      destruct (avatar q) as [lq|] eqn:Hlq; [|exact I].
      rewrite (Hother i q lq) by (congruence || assumption). exact Hok.
  - intros i j q1 q2 l' Hq1 Hq2 Hl1 Hl2. cbn [g_players] in *.
    assert (Hfresh_row : ∀ k q, g_players s !! k = Some q → avatar q ≠ Some l).
    { intros k q Hq Hl. pose proof (avatar_ok_live _ _ (Hrows k q Hq)) as Hlive.
      unfold avatar_live in Hlive. rewrite Hl, Hfresh in Hlive.
      destruct Hlive; discriminate. }
    apply list_lookup_insert_Some in Hq1 as [(<- & <- & _)|(Hi & Hq1)];
      apply list_lookup_insert_Some in Hq2 as [(<- & <- & _)|(Hj & Hq2)];
      try reflexivity.
    + cbn in Hl1. inversion Hl1; subst l'. exfalso. eapply Hfresh_row; eassumption.
    + cbn in Hl2. inversion Hl2; subst l'. exfalso. eapply Hfresh_row; eassumption.
    + eapply Hown; eassumption.
Qed.

(** The invariant, for use in the proofs below. *)
Lemma table_ok_reachable s : reachable s → table_ok s.
Proof.
  induction 1 as [|s tip rx ry r s' _ IH Hrun|s ok tp px aw ah ac r s' _ IH Hrun].
  - apply table_ok_init.
  - eapply table_ok_ensure; eassumption.
  - eapply table_ok_avatar; eassumption.
Qed.

(** X9. In every reachable state each row of the table either has no avatar
    or points to a live block that holds exactly [w * h * ch] initialised
    bytes, with [w] and [h] at most 8 and [ch = 4]; and no block is the
    avatar of two rows. *)
Theorem reachable_table_ok s : reachable s → table_ok s.
Proof.
  induction 1 as [|s tip rx ry r s' _ IH Hrun|s ok tp px aw ah ac r s' _ IH Hrun].
  - apply table_ok_init.
  - apply (table_ok_ensure tip rx ry s r s' IH Hrun).
  - apply (table_ok_avatar ok tp px aw ah ac s r s' IH Hrun).
Qed.

Lemma reachable_table_ok_witness : table_ok avatar_replaced.
Proof.
  apply reachable_table_ok.
  apply (reach_avatar avatar_uploaded true 1 [x0a; x14; x1e; x28] 1 1 4 true).
  - apply (reach_avatar registered_once true 1 [xff; xff; xff] 1 1 3 true).
    + apply (reach_ensure init_state localhost 7 9 (Some 1%N));
        [apply reach_init|reflexivity].
    + vm_compute. reflexivity.
  - vm_compute. reflexivity.
Defined.

(** X10. From a reachable state [set_player_avatar] is undefined in two
    cases only, both after a successful allocation: the target is not a row
    of the array, or the source is shorter than the bytes the loops
    address. In particular the [free] of line 241 never meets a dangling
    pointer. A call that returns gives true exactly when the allocation
    succeeded. *)
Theorem set_player_avatar_defined_iff
    s alloc_ok target_player av_pixels av_w av_h av_ch :
  reachable s →
  (is_Some (set_player_avatar alloc_ok target_player av_pixels av_w av_h av_ch s)
   ↔ alloc_ok = false
     ∨ ((target_player < MAX_PLAYERS)%N
        ∧ (N.to_nat (src_needed av_w av_h av_ch) <= length av_pixels)%nat))
  ∧ ∀ r s',
      set_player_avatar alloc_ok target_player av_pixels av_w av_h av_ch s
        = Some (r, s') →
      r = alloc_ok.
Proof.
  intros Hs. destruct (reachable_counters s Hs) as (_ & _ & Hlen).
  destruct (table_ok_reachable s Hs) as [Hrows _].
  split.
  - destruct alloc_ok; [|split; [auto|eexists; reflexivity]].
    rewrite set_player_avatar_alloc. split.
    + intros [[r s'] Hrun]. right.
      destruct (normalized av_pixels av_w av_h av_ch) as [cells|] eqn:Hnorm;
        [|discriminate].
      cbn [mbind option_bind] in Hrun.
      destruct (g_players s !! N.to_nat target_player) as [p|] eqn:Hp;
        [|discriminate].
      apply lookup_lt_Some in Hp. rewrite Hlen in Hp.
      split; [lia|]. apply normalized_needs_source. eauto.
    + intros [|[Htp Hsrc]]; [discriminate|].
      destruct (normalized_ok _ _ _ _ Hsrc) as (cells & -> & _).
      cbn [mbind option_bind].
      destruct (lookup_lt_is_Some_2 (g_players s) (N.to_nat target_player))
        as [p Hp]; [rewrite Hlen; lia|].
      rewrite Hp. cbn [mbind option_bind].
      pose proof (avatar_ok_live _ _ (Hrows _ _ Hp)) as Hlive.
      unfold avatar_live in Hlive. unfold free.
      destruct (avatar p) as [old|]; [|eexists; reflexivity].
      destruct Hlive as [c Hold].
      destruct (decide (fresh (dom (heap s)) = old)) as [->|Hne].
      * rewrite lookup_insert_eq. eexists. reflexivity.
      * rewrite lookup_insert_ne, Hold by assumption. eexists. reflexivity.
  - intros r s' Hrun.
    destruct (set_player_avatar_cases _ _ _ _ _ _ _ _ _ Hrun)
      as [(-> & -> & _)|(-> & -> & _)]; reflexivity.
Qed.

Lemma set_player_avatar_defined_iff_witness :
  is_Some (set_player_avatar true 31 (replicate 64 x7f) 8 8 1 registered_once)
  ∧ ¬ is_Some (set_player_avatar true 32 (replicate 64 x7f) 8 8 1 registered_once)
  ∧ ¬ is_Some (set_player_avatar true 31 (replicate 63 x7f) 8 8 1 registered_once).
Proof.
  assert (Hs : reachable registered_once).
  { apply (reach_ensure init_state localhost 7 9 (Some 1%N));
      [apply reach_init|reflexivity]. }
  split; [|split].
  - apply (set_player_avatar_defined_iff registered_once true 31
             (replicate 64 x7f) 8 8 1 Hs).
    right. split; [reflexivity|vm_compute; lia].
  - intros H.
    apply (set_player_avatar_defined_iff registered_once true 32
             (replicate 64 x7f) 8 8 1 Hs) in H.
    destruct H as [H|[H _]]; [discriminate|vm_compute in H; discriminate].
  - intros H.
    apply (set_player_avatar_defined_iff registered_once true 31
             (replicate 63 x7f) 8 8 1 Hs) in H.
    destruct H as [H|[_ H]]; [discriminate|vm_compute in H; lia].
Defined.

(** X11. Registration as the two operations compose: from every reachable
    state, [ensure_player] followed by [set_player_avatar] on the row it
    returned, with a source that holds the addressed bytes, leaves row 1
    with the identity, [player_id] 2, position (100, 100), the converted
    image in a live block, the truncated dimensions, four channels, the
    dirty flag set and [connected] and [tex_inited] false. *)
Theorem register_then_upload s target_ip rnd_x rnd_y av_pixels av_w av_h av_ch :
  reachable s →
  (N.to_nat (src_needed av_w av_h av_ch) <= length av_pixels)%nat →
  ∃ s1 s2 p l cells,
    ensure_player target_ip rnd_x rnd_y s = Some (Some 1%N, s1)
    ∧ set_player_avatar true 1 av_pixels av_w av_h av_ch s1 = Some (true, s2)
    ∧ g_players s2 !! 1%nat = Some p
    ∧ ip p = target_ip ∧ player_id p = 2%N
    ∧ pos_x p = 100%Z ∧ pos_y p = 100%Z
    ∧ connected p = false ∧ tex_inited p = false ∧ tex_dirty p = true
    ∧ avatar p = Some l
    ∧ heap s2 !! l = Some cells
    ∧ normalized av_pixels av_w av_h av_ch = Some cells
    ∧ w p = truncate_dim av_w MAX_AVATAR_W
    ∧ h p = truncate_dim av_h MAX_AVATAR_H
    ∧ ch p = 4%N.
Proof.
  intros Hs Hsrc.
  destruct (reachable_counters s Hs) as (_ & Hn & Hlen).
  destruct (normalized_ok _ _ _ _ Hsrc) as (cells & Hnorm & _).
  assert (Hrow1 : (1 < length (g_players s))%nat) by (rewrite Hlen; vm_compute; lia).
  eexists _, _, _, (fresh (dom (heap s))), cells.
  split; [apply reachable_ensure, Hs|].
  split.
  { rewrite set_player_avatar_alloc, Hnorm. cbn [mbind option_bind].
    cbn [g_players with_players heap]. change (N.to_nat 1) with 1%nat.
    rewrite list_lookup_insert_eq by assumption. reflexivity. }
  split.
  { cbn [g_players]. change (N.to_nat 1) with 1%nat.
    apply list_lookup_insert_eq. rewrite length_insert. assumption. }
  cbn. unfold new_player_id. rewrite Hn.
  repeat (split; [reflexivity|]).
  split; [apply lookup_insert_eq|].
  split; [exact Hnorm|]. repeat split.
Qed.

Lemma register_then_upload_witness :
  ∃ s2 p,
    set_player_avatar true 1 (replicate 12 xff) 2 2 3 registered_other
      = Some (true, s2)
    ∧ g_players s2 !! 1%nat = Some p
    ∧ tex_dirty p = true.
Proof.
  destruct (register_then_upload registered_once other_host 3 4
              (replicate 12 xff) 2 2 3)
    as (s1 & s2 & p & l & cells & Hens & Hset & Hrow & _ & _ & _ & _ & _ & _ & Hdirty & _).
  - apply (reach_ensure init_state localhost 7 9 (Some 1%N));
      [apply reach_init|reflexivity].
  - vm_compute. lia.
  - exists s2, p. split; [|split; assumption].
    assert (s1 = registered_other) as <-; [|exact Hset].
    assert (Heq : Some (Some 1%N, s1) = Some (Some 1%N, registered_other))
      by (rewrite <- Hens; reflexivity).
    inversion Heq. reflexivity.
Defined.

(** X12. Each registration loses the avatar of the player registered
    before: when row 1 holds an avatar, the next call of [ensure_player]
    leaves its block allocated while no row of the table points to it any
    more. *)
Theorem ensure_player_orphans_avatar s target_ip rnd_x rnd_y p l :
  reachable s →
  g_players s !! 1%nat = Some p →
  avatar p = Some l →
  ∃ s',
    ensure_player target_ip rnd_x rnd_y s = Some (Some 1%N, s')
    ∧ is_Some (heap s' !! l)
    ∧ ∀ i q, g_players s' !! i = Some q → avatar q ≠ Some l.
Proof.
  intros Hs Hp Hl.
  destruct (table_ok_reachable s Hs) as [Hrows Hown].
  eexists. split; [apply reachable_ensure, Hs|].
  split.
  - cbn [heap with_players].
    pose proof (avatar_ok_live _ _ (Hrows _ _ Hp)) as Hlive.
    unfold avatar_live in Hlive. rewrite Hl in Hlive. exact Hlive.
  - intros i q Hq Hql. cbn [g_players with_players] in Hq.
    apply list_lookup_insert_Some in Hq as [(_ & <- & _)|(Hi & Hq)];
      [discriminate|].
    apply Hi. symmetry. eapply Hown; eassumption.
Qed.

Lemma ensure_player_orphans_avatar_witness :
  ∃ s',
    ensure_player other_host 3 4 avatar_uploaded = Some (Some 1%N, s')
    ∧ is_Some (heap s' !! 1%positive)
    ∧ ∀ i q, g_players s' !! i = Some q → avatar q ≠ Some 1%positive.
Proof.
  apply (ensure_player_orphans_avatar avatar_uploaded other_host 3 4
           (with_tex_dirty true (with_ch 4 (with_h 1 (with_w 1
              (with_avatar (Some 1%positive)
                 (created_row localhost init_state))))))).
  - apply (reach_avatar registered_once true 1 [xff; xff; xff] 1 1 3 true).
    + apply (reach_ensure init_state localhost 7 9 (Some 1%N));
        [apply reach_init|reflexivity].
    + vm_compute. reflexivity.
  - reflexivity.
  - reflexivity.
Defined.

(** ** The wire helpers: the stream and the buffer *)

Lemma recv_bytes_requeue left rest :
  recv_bytes (requeue left rest) = left ++ recv_bytes rest.
Proof. destruct left; reflexivity. Qed.

Lemma write_at_result buf off data buf1 :
  write_at buf off data = Some buf1 →
  (N.to_nat off + length data <= length buf)%nat
  ∧ length buf1 = length buf
  ∧ take (N.to_nat off) buf1 = take (N.to_nat off) buf
  ∧ take (N.to_nat off + length data) buf1 = take (N.to_nat off) buf ++ data
  ∧ ∀ n, (N.to_nat off + length data <= n)%nat → drop n buf1 = drop n buf.
Proof.
  unfold write_at. destruct (decide _) as [Hfit|]; [|discriminate].
  intros H. inversion H; subst buf1; clear H.
  assert (Hpre : length (take (N.to_nat off) buf) = N.to_nat off)
    by (rewrite length_take; lia).
  split; [exact Hfit|]. split.
  { rewrite !length_app, length_drop, Hpre. lia. }
  split.
  { rewrite take_app_le by lia. rewrite take_take. f_equal. lia. }
  split.
  { rewrite app_assoc. apply take_app_length'. rewrite length_app. lia. }
  intros n Hn.
  rewrite app_assoc, drop_app_ge by (rewrite length_app; lia).
  rewrite length_app, Hpre, drop_drop. f_equal. lia.
Qed.

(** What a call of [recvall] that returns has done, whatever is scripted:
    the buffer keeps its size, the bytes received before and the bytes
    beyond [len]; nothing is sent; and when the result is [len], the bytes
    stored are the next bytes of the stream, which are taken off it. *)
Lemma recvall_loop_stream io len :
  (Z.of_N len <= SSIZE_MAX)%Z →
  ∀ fuel c buf nrecv r buf' c',
    (nrecv <= len)%N →
    recvall_loop io fuel c buf len nrecv = Some (r, buf', c') →
    length buf' = length buf
    ∧ take (N.to_nat nrecv) buf' = take (N.to_nat nrecv) buf
    ∧ drop (N.to_nat len) buf' = drop (N.to_nat len) buf
    ∧ outgoing c' = outgoing c ∧ wire c' = wire c
    ∧ (r = Z.of_N len →
       take (N.to_nat len) buf'
       = take (N.to_nat nrecv) buf
           ++ take (N.to_nat (len - nrecv)) (recv_bytes (incoming c))
       ∧ recv_bytes (incoming c')
         = drop (N.to_nat (len - nrecv)) (recv_bytes (incoming c))
       ∧ (N.to_nat (len - nrecv) <= length (recv_bytes (incoming c)))%nat).
Proof.
  intros Hmax.
  assert (Hdone : ∀ fuel c buf nrecv r buf' c',
            (nrecv <= len)%N → (len <= nrecv)%N →
            recvall_loop io fuel c buf len nrecv = Some (r, buf', c') →
            length buf' = length buf
            ∧ take (N.to_nat nrecv) buf' = take (N.to_nat nrecv) buf
            ∧ drop (N.to_nat len) buf' = drop (N.to_nat len) buf
            ∧ outgoing c' = outgoing c ∧ wire c' = wire c
            ∧ (r = Z.of_N len →
               take (N.to_nat len) buf'
               = take (N.to_nat nrecv) buf
                   ++ take (N.to_nat (len - nrecv)) (recv_bytes (incoming c))
               ∧ recv_bytes (incoming c')
                 = drop (N.to_nat (len - nrecv)) (recv_bytes (incoming c))
               ∧ (N.to_nat (len - nrecv) <= length (recv_bytes (incoming c)))%nat)).
  { intros fuel c buf nrecv r buf' c' H1 H2 Hrun.
    rewrite recvall_loop_done in Hrun by assumption. inversion Hrun; subst.
    repeat (split; [reflexivity|]). intros _.
    replace (N.to_nat (len - nrecv)) with 0%nat by lia.
    replace nrecv with len by lia.
    rewrite take_0, drop_0, app_nil_r. repeat split. simpl. lia. }
  induction fuel as [|k IH]; intros c buf nrecv r buf' c' Hle Hrun.
  - destruct (N.leb_spec len nrecv) as [Hd|Hlt]; [eauto|].
    apply N.leb_gt in Hlt. simpl in Hrun. rewrite Hlt in Hrun. discriminate.
  - destruct (N.leb_spec len nrecv) as [Hd|Hlt]; [eauto|].
    destruct c as [inc out wr e]. destruct inc as [|[b bs| |e1] rest].
    + apply N.leb_gt in Hlt. simpl in Hrun. rewrite Hlt in Hrun. discriminate.
    + pose proof Hlt as Hlt'. apply N.leb_gt in Hlt'.
      cbn [recvall_loop] in Hrun. rewrite Hlt' in Hrun.
      unfold recv in Hrun. cbn [incoming mbind option_bind] in Hrun.
      set (n := N.to_nat (len - nrecv)) in *.
      set (data := take n (b :: bs)) in *.
      set (left := drop n (b :: bs)) in *.
      assert (Hdata : (1 <= length data <= n)%nat).
      { unfold data. rewrite length_take. simpl. lia. }
      assert (Hsplit : b :: bs = data ++ left)
        by (unfold data, left; rewrite take_drop; reflexivity).
      destruct (Z.eqb_spec (Z.of_nat (length data)) 0) as [|_]; [lia|].
      destruct (Z.ltb_spec (Z.of_nat (length data)) 0) as [|_]; [lia|].
      destruct (write_at buf nrecv data) as [buf1|] eqn:Hw; [|discriminate].
      cbn [mbind option_bind] in Hrun.
      apply write_at_result in Hw as (Hfit & Hlen1 & Hpre1 & Hmid1 & Htail1).
      rewrite usize_small in Hrun by lia.
      apply IH in Hrun; [|lia].
      destruct Hrun as (Hlen & Hpre & Htail & Hout & Hwire & Hok).
      cbn [outgoing wire incoming] in *.
      replace (N.to_nat (nrecv + Z.to_N (Z.of_nat (length data))))
        with (N.to_nat nrecv + length data)%nat in * by lia.
      split; [congruence|]. split.
      { transitivity (take (N.to_nat nrecv)
                        (take (N.to_nat nrecv + length data) buf')).
        { rewrite take_take. f_equal. lia. }
        rewrite Hpre, take_take, <- Hpre1. f_equal. lia. }
      split; [rewrite Htail; apply Htail1; lia|].
      split; [assumption|]. split; [assumption|].
      intros Hr. destruct (Hok Hr) as (Htake & Hrest & Hbytes).
      rewrite recv_bytes_requeue in Htake, Hrest, Hbytes.
      change (recv_bytes (RecvData b bs :: rest)) with ((b :: bs) ++ recv_bytes rest).
      rewrite Hsplit, <- app_assoc.
      replace (N.to_nat (len - (nrecv + Z.to_N (Z.of_nat (length data)))))
        with (n - length data)%nat in * by lia.
      split; [|split].
      * rewrite Htake, Hmid1, <- app_assoc. f_equal.
        rewrite (take_app_ge data) by lia. reflexivity.
      * rewrite Hrest. rewrite (drop_app_ge data) by lia. reflexivity.
      * rewrite length_app. lia.
    + rewrite recvall_loop_closed in Hrun by assumption.
      inversion Hrun; subst. repeat (split; [reflexivity|]). intros Hr. lia.
    + rewrite recvall_loop_error in Hrun by assumption.
      destruct (_ =? EINTR)%Z.
      * apply IH in Hrun; [|assumption]. exact Hrun.
      * inversion Hrun; subst. repeat (split; [reflexivity|]). intros Hr. lia.
Qed.

Lemma sendall_loop_incoming buf len :
  ∀ fuel c nsent r c',
    sendall_loop fuel c buf len nsent = Some (r, c') →
    incoming c' = incoming c.
Proof.
  induction fuel as [|k IH]; intros c nsent r c' Hrun.
  - simpl in Hrun. destruct (len <=? nsent)%N; [|discriminate].
    inversion Hrun. reflexivity.
  - cbn [sendall_loop] in Hrun. destruct (len <=? nsent)%N.
    { inversion Hrun. reflexivity. }
    destruct (read_at buf nsent (len - nsent)) as [data|]; [|discriminate].
    cbn [mbind option_bind] in Hrun. unfold send in Hrun.
    destruct c as [inc out wr e]. cbn [outgoing incoming wire errno] in *.
    destruct out as [|[n| |e1] rest]; [discriminate|..];
      cbn [mbind option_bind errno] in Hrun.
    + destruct (_ <=? 0)%Z.
      * destruct (e =? EINTR)%Z; [apply IH in Hrun; exact Hrun|].
        inversion Hrun. reflexivity.
      * apply IH in Hrun. exact Hrun.
    + cbn in Hrun. destruct (e =? EINTR)%Z; [apply IH in Hrun; exact Hrun|].
      inversion Hrun. reflexivity.
    + cbn in Hrun. destruct (e1 =? EINTR)%Z; [apply IH in Hrun; exact Hrun|].
      inversion Hrun. reflexivity.
Qed.

(** X13. A call of [recvall] that returns [len] has stored the next [len]
    bytes of the stream at the start of the buffer and has taken exactly
    those bytes off the stream: what follows them is still there for the
    next read, whatever the fragments were. *)
Theorem recvall_takes_stream_prefix io c buf len buf' c' :
  (Z.of_N len <= SSIZE_MAX)%Z →
  (N.to_nat len <= length buf)%nat →
  recvall io c buf len = Some (Z.of_N len, buf', c') →
  buf' = take (N.to_nat len) (recv_bytes (incoming c)) ++ drop (N.to_nat len) buf
  ∧ recv_bytes (incoming c') = drop (N.to_nat len) (recv_bytes (incoming c))
  ∧ (N.to_nat len <= length (recv_bytes (incoming c)))%nat.
Proof.
  intros Hmax Hbuf Hrun. unfold recvall in Hrun.
  apply (recvall_loop_stream io len Hmax) in Hrun; [|lia].
  destruct Hrun as (_ & _ & Htail & _ & _ & Hok).
  destruct (Hok eq_refl) as (Htake & Hrest & Hbytes).
  rewrite N.sub_0_r in *. simpl in Htake.
  split; [|split; assumption].
  rewrite <- (take_drop (N.to_nat len) buf'), Htake, Htail. reflexivity.
Qed.

Lemma recvall_takes_stream_prefix_witness :
  ∃ c',
    recvall quiet hello_conn (replicate 3 x00) 3
    = Some (3%Z, [x68; x65; x6c], c')
    ∧ recv_bytes (incoming c') = [x6c; x6f].
Proof.
  destruct (recvall quiet hello_conn (replicate 3 x00) 3) as [[[r buf'] c']|] eqn:Hrun;
    [|vm_compute in Hrun; discriminate].
  assert (Hr : r = 3%Z) by (vm_compute in Hrun; inversion Hrun; reflexivity).
  subst r.
  destruct (recvall_takes_stream_prefix quiet hello_conn (replicate 3 x00) 3 buf' c')
    as (Hbuf & Hrest & _); [vm_compute; discriminate|simpl; lia|exact Hrun|].
  exists c'. split; [|exact Hrest]. rewrite Hbuf. reflexivity.
Defined.

(** X14. Neither helper reaches outside its part: a call of [recvall] that
    returns, with whatever result, leaves the size of the buffer and every
    byte from offset [len] on as they were and puts nothing on the wire; a
    call of [sendall] that returns has read nothing from the stream. *)
Theorem wire_helpers_stay_in_bounds io c buf len :
  (Z.of_N len <= SSIZE_MAX)%Z →
  (∀ r buf' c',
     recvall io c buf len = Some (r, buf', c') →
     length buf' = length buf
     ∧ drop (N.to_nat len) buf' = drop (N.to_nat len) buf
     ∧ outgoing c' = outgoing c ∧ wire c' = wire c)
  ∧ (∀ r c', sendall c buf len = Some (r, c') → incoming c' = incoming c).
Proof.
  intros Hmax. split.
  - intros r buf' c' Hrun. unfold recvall in Hrun.
    apply (recvall_loop_stream io len Hmax) in Hrun; [|lia].
    destruct Hrun as (Hlen & _ & Htail & Hout & Hwire & _). auto.
  - intros r c' Hrun. unfold sendall in Hrun.
    eapply sendall_loop_incoming, Hrun.
Qed.

Lemma wire_helpers_stay_in_bounds_witness :
  ∃ buf' c',
    recvall quiet hello_conn (replicate 8 x01) 6 = Some (0%Z, buf', c')
    ∧ drop 6 buf' = [x01; x01]
    ∧ wire c' = [].
Proof.
  destruct (recvall quiet hello_conn (replicate 8 x01) 6) as [[[r buf'] c']|] eqn:Hrun;
    [|vm_compute in Hrun; discriminate].
  assert (Hr : r = 0%Z) by (vm_compute in Hrun; inversion Hrun; reflexivity).
  subst r.
  destruct (wire_helpers_stay_in_bounds quiet hello_conn (replicate 8 x01) 6)
    as [Hrecv _]; [vm_compute; discriminate|].
  destruct (Hrecv _ _ _ Hrun) as (_ & Htail & _ & Hwire).
  exists buf', c'. split; [reflexivity|]. split; [exact Htail|exact Hwire].
Defined.

(** X15. Two reads in a row, as for an opcode and its payload: when
    [recvall] returns [n1] and a second call on the connection it left
    returns [n2], the two buffers start with the first [n1] bytes of the
    stream and with the [n2] bytes after them. *)
Theorem recvall_twice_reads_in_order io c buf1 n1 buf1' c1 buf2 n2 buf2' c2 :
  (Z.of_N n1 <= SSIZE_MAX)%Z → (Z.of_N n2 <= SSIZE_MAX)%Z →
  recvall io c buf1 n1 = Some (Z.of_N n1, buf1', c1) →
  recvall io c1 buf2 n2 = Some (Z.of_N n2, buf2', c2) →
  take (N.to_nat n1) buf1' ++ take (N.to_nat n2) buf2'
  = take (N.to_nat n1 + N.to_nat n2) (recv_bytes (incoming c))
  ∧ recv_bytes (incoming c2)
    = drop (N.to_nat n1 + N.to_nat n2) (recv_bytes (incoming c)).
Proof.
  intros Hmax1 Hmax2 Hrun1 Hrun2. unfold recvall in Hrun1, Hrun2.
  apply (recvall_loop_stream io n1 Hmax1) in Hrun1; [|lia].
  apply (recvall_loop_stream io n2 Hmax2) in Hrun2; [|lia].
  destruct Hrun1 as (_ & _ & _ & _ & _ & Hok1).
  destruct Hrun2 as (_ & _ & _ & _ & _ & Hok2).
  destruct (Hok1 eq_refl) as (Htake1 & Hrest1 & _).
  destruct (Hok2 eq_refl) as (Htake2 & Hrest2 & _).
  rewrite N.sub_0_r in *. simpl in Htake1, Htake2.
  rewrite Htake1, Htake2, Hrest2, Hrest1, drop_drop, take_take_drop.
  split; reflexivity.
Qed.

Lemma recvall_twice_reads_in_order_witness :
  ∃ b1 c1 b2 c2,
    recvall quiet hello_conn [x00] 1 = Some (1%Z, b1, c1)
    ∧ recvall quiet c1 [x00; x00; x00; x00] 4 = Some (4%Z, b2, c2)
    ∧ take 1 b1 ++ take 4 b2 = hello.
Proof.
  destruct (recvall quiet hello_conn [x00] 1) as [[[r1 b1] c1]|] eqn:Hrun1;
    [|vm_compute in Hrun1; discriminate].
  assert (Hc1 : r1 = 1%Z ∧ c1 = mkConn [RecvData x65 []; RecvError EINTR;
                                        RecvData x6c [x6c; x6f]; RecvClosed]
                                  (outgoing hello_conn) [] 0)
    by (vm_compute in Hrun1; inversion Hrun1; split; reflexivity).
  destruct Hc1 as [-> Hc1].
  destruct (recvall quiet c1 [x00; x00; x00; x00] 4) as [[[r2 b2] c2]|] eqn:Hrun2;
    [|rewrite Hc1 in Hrun2; vm_compute in Hrun2; discriminate].
  assert (Hr2 : r2 = 4%Z)
    by (rewrite Hc1 in Hrun2; vm_compute in Hrun2; inversion Hrun2; reflexivity).
  subst r2.
  destruct (recvall_twice_reads_in_order quiet hello_conn [x00] 1 b1 c1
              [x00; x00; x00; x00] 4 b2 c2) as (Hcat & _);
    [vm_compute; discriminate|vm_compute; discriminate|exact Hrun1|exact Hrun2|].
  exists b1, c1, b2, c2. split; [reflexivity|]. split; [exact Hrun2|].
  exact Hcat.
Defined.

(** X16. Round trip: when [sendall] returns [len], and the bytes it put on
    the wire reach the peer's [recvall] in whatever fragments, that
    [recvall] returns [len] and its buffer starts with the [len] bytes
    that were sent. Interrupted calls between the fragments are got over
    as well when [perror] leaves [errno] as it is; without interrupted
    calls nothing is asked of [perror]. *)
Theorem send_then_receive io cs buf len cs' cr frags post rbuf :
  (Z.of_N len <= SSIZE_MAX)%Z →
  (N.to_nat len <= length buf)%nat →
  (N.to_nat len <= length rbuf)%nat →
  sendall cs buf len = Some (Z.of_N len, cs') →
  incoming cr = frags ++ post →
  forallb retried frags = true →
  (existsb recv_failed frags = true → leaves_errno io) →
  recv_bytes frags = drop (length (wire cs)) (wire cs') →
  ∃ cr',
    recvall io cr rbuf len
    = Some (Z.of_N len, take (N.to_nat len) buf ++ drop (N.to_nat len) rbuf, cr').
Proof.
  intros Hmax Hbuf Hrbuf Hsend Hinc Hret Hio Hwire.
  unfold sendall in Hsend.
  apply (sendall_loop_sound len buf Hmax Hbuf) in Hsend; [|lia].
  destruct Hsend as (k & Hsent & [[_ Hk]|[Hneg _]]);
    [|pose proof (N2Z.is_nonneg len); lia].
  rewrite Hsent, drop_app_length in Hwire.
  change (N.to_nat 0) with 0%nat in Hwire. rewrite drop_0 in Hwire.
  replace k with len in Hwire by lia.
  destruct cr as [inc out wr e]. cbn [incoming] in Hinc. subst inc.
  unfold recvall. cbn [incoming].
  destruct (recvall_loop_enough io len post out wr Hmax frags
              (S (length (frags ++ post))) e [] rbuf) as [cr' Hrun];
    [assumption|exact Hio|rewrite length_app; lia| |simpl; lia|].
  { rewrite Hwire, length_take. simpl. lia. }
  exists cr'. cbn [app length] in Hrun. change (N.of_nat 0) with 0%N in Hrun.
  rewrite Hrun, Nat.sub_0_r, Hwire, take_take, Nat.min_id. reflexivity.
Qed.

Lemma send_then_receive_witness :
  (∃ cr',
     recvall broken_stderr
       (mkConn [RecvData x68 [x65]; RecvData x6c [x6c; x6f]; RecvError EINTR]
          [] [] 0)
       (replicate 5 x00) 5
     = Some (5%Z, hello, cr'))
  ∧ ∃ cr', recvall quiet hello_conn (replicate 5 x00) 5 = Some (5%Z, hello, cr').
Proof.
  destruct (sendall hello_conn hello 5) as [[r cs']|] eqn:Hsend;
    [|vm_compute in Hsend; discriminate].
  assert (Hcs : r = 5%Z ∧ wire cs' = hello)
    by (vm_compute in Hsend; inversion Hsend; split; reflexivity).
  destruct Hcs as [-> Hw].
  split.
  - destruct (send_then_receive broken_stderr hello_conn hello 5 cs'
                (mkConn [RecvData x68 [x65]; RecvData x6c [x6c; x6f];
                         RecvError EINTR] [] [] 0)
                [RecvData x68 [x65]; RecvData x6c [x6c; x6f]]
                [RecvError EINTR] (replicate 5 x00)) as [cr' Hrun];
      [vm_compute; discriminate|simpl; lia|simpl; lia|exact Hsend|reflexivity
      |reflexivity|discriminate|rewrite Hw; reflexivity|].
    exists cr'. exact Hrun.
  - destruct (send_then_receive quiet hello_conn hello 5 cs' hello_conn
                [RecvData x68 [x65]; RecvError EINTR; RecvData x6c [x6c; x6f]]
                [RecvClosed] (replicate 5 x00)) as [cr' Hrun];
      [vm_compute; discriminate|simpl; lia|simpl; lia|exact Hsend|reflexivity
      |reflexivity|intros _ c; reflexivity|rewrite Hw; reflexivity|].
    exists cr'. exact Hrun.
Defined.

(** X17. [recvall] has no timeout: while only data short of [len] arrives
    it does not return, whatever [perror] does; and when [perror] leaves
    [errno] as it is, interrupted calls among the data do not make it
    return either. *)
Theorem recvall_waits_for_more io evs out wr e buf len :
  (Z.of_N len <= SSIZE_MAX)%Z →
  (N.to_nat len <= length buf)%nat →
  forallb retried evs = true →
  (existsb recv_failed evs = true → leaves_errno io) →
  (length (recv_bytes evs) < N.to_nat len)%nat →
  recvall io (mkConn evs out wr e) buf len = None.
Proof.
  intros Hmax Hbuf Hret Hio Hshort. unfold recvall. cbn [incoming].
  destruct (recvall_loop_consume io len [] out wr Hmax evs (S (length evs)) e [] buf)
    as [e' Hrun]; [assumption|exact Hio|lia|simpl; lia|simpl; lia|].
  rewrite app_nil_r in Hrun. cbn [app length] in Hrun.
  change (N.of_nat 0) with 0%N in Hrun. rewrite Hrun.
  replace (S (length evs) - length evs)%nat with 1%nat by lia.
  cbn [recvall_loop].
  destruct (N.leb_spec len (N.of_nat (length (recv_bytes evs)))) as [|_]; [lia|].
  reflexivity.
Qed.

Lemma recvall_waits_for_more_witness :
  recvall broken_stderr (mkConn [RecvData x68 [x65]; RecvData x6c []] [] [] 0)
    (replicate 5 x00) 5 = None
  ∧ recvall quiet (mkConn [RecvData x68 [x65]; RecvError EINTR] [] [] 0)
      (replicate 5 x00) 5 = None.
Proof.
  split.
  - apply (recvall_waits_for_more broken_stderr
             [RecvData x68 [x65]; RecvData x6c []] [] [] 0);
      [vm_compute; discriminate|simpl; lia|reflexivity|discriminate|simpl; lia].
  - apply (recvall_waits_for_more quiet
             [RecvData x68 [x65]; RecvError EINTR] [] [] 0);
      [vm_compute; discriminate|simpl; lia|reflexivity|intros _ c; reflexivity
      |simpl; lia].
Defined.

(** X18. A [send] that returns 0 does not set [errno], and [sendall] tests
    [errno] all the same: with an [errno] other than [EINTR] left by
    earlier code the call ends with -1 and nothing sent, and with a stale
    [EINTR] the zero-byte [send] is retried as if it had been interrupted. *)
Theorem sendall_zero_send_follows_stale_errno inc rest wr e buf len :
  (0 < len)%N →
  (N.to_nat len <= length buf)%nat →
  (e ≠ EINTR →
   sendall (mkConn inc (SendZero :: rest) wr e) buf len
   = Some ((-1)%Z, mkConn inc rest wr e))
  ∧ (e = EINTR →
     sendall (mkConn inc (SendZero :: rest) wr e) buf len
     = sendall (mkConn inc rest wr e) buf len).
Proof.
  intros Hlen Hbuf. unfold sendall. cbn [outgoing length].
  rewrite sendall_loop_zero by assumption. split.
  - intros He. apply Z.eqb_neq in He. rewrite He. reflexivity.
  - intros ->. reflexivity.
Qed.

Lemma sendall_zero_send_follows_stale_errno_witness :
  sendall (mkConn [] [SendZero; SendSome 9] [] 0) hello 5
  = Some ((-1)%Z, mkConn [] [SendSome 9] [] 0)
  ∧ sendall (mkConn [] [SendZero; SendSome 9] [] EINTR) hello 5
    = sendall (mkConn [] [SendSome 9] [] EINTR) hello 5.
Proof.
  destruct (sendall_zero_send_follows_stale_errno [] [SendSome 9] [] 0 hello 5)
    as [Hfail _]; [reflexivity|simpl; lia|].
  destruct (sendall_zero_send_follows_stale_errno [] [SendSome 9] [] EINTR hello 5)
    as [_ Hretry]; [reflexivity|simpl; lia|].
  split; [apply Hfail; discriminate|apply Hretry; reflexivity].
Defined.
